(** * Arena allocator (arena.c / arena.h): shallow embedding and properties

    The C code runs on an LP64 POSIX platform (x86-64 or AArch64 Linux):
    [size_t] and pointers are 64 bits wide, [alignof(max_align_t)] is 16,
    and [struct _Region] and [struct _Arena] have the layout the System V
    ABI gives them.  The page size is what [sysconf(_SC_PAGE_SIZE)] reports
    at run time, so it stays a variable: a power of two [2 ^ page_shift].

    Memory is explicit: Region structs live in a finite map from addresses
    to records, pointers are addresses in [Z], [nullptr] is [None].  The
    kernel side of [mmap] is a list of live mappings plus the address the
    kernel picks for the new block. *)

From Stdlib Require Import ZArith Lia Bool List.
From Stdlib.Strings Require Import Byte.
From stdpp Require Import base option gmap list.

Local Open Scope Z_scope.

(** ** [size_t] arithmetic *)

Definition SIZE_BITS : Z := 64.
Definition SIZE_MAX : Z := 2 ^ SIZE_BITS - 1.

(** Reduction of a mathematical integer to a [size_t] value. *)
Definition size_t (z : Z) : Z := z mod 2 ^ SIZE_BITS.

Definition in_size_t (z : Z) : Prop := 0 <= z <= SIZE_MAX.

(** ** ABI constants *)

(** [alignof(max_align_t)] *)
Definition MAX_ALIGN : Z := 16.

(** [offsetof(Region, data)]: [next], [tail], [capacity] are 8 bytes each. *)
Definition REGION_HEADER_SIZE : Z := 24.

(** [offsetof(Arena, first)]: [last] and [new_region_capacity] come first. *)
Definition ARENA_FIRST_OFFSET : Z := 16.

Definition ARENA_HEADER_SIZE : Z := ARENA_FIRST_OFFSET + REGION_HEADER_SIZE.

(** ** General purpose helpers *)

(** [#define is_power_of_two(v) (v && !((v & (v - 1))))] *)
Definition is_power_of_two (v : Z) : bool :=
  negb (v =? 0) && (Z.land v (size_t (v - 1)) =? 0).

(** [#define max(a, b) (((a) > (b))? (a) : (b))] *)
Definition max (a b : Z) : Z := if a >? b then a else b.

(** [static inline size_t align(size_t n, size_t alignment)] *)
Definition align (n alignment : Z) : Z :=
  if alignment >? 0 then
    let a := size_t (alignment - 1) in
    Z.land (size_t (n + a)) (size_t (Z.lnot a))
  else n.

(** The rounding the specification speaks of, over the mathematical
    integers: the least multiple of [a] that is at least [n]. *)
Definition round_up (n a : Z) : Z := a * ((n + a - 1) / a).


(** * The program *)

(** ** Outcomes of a call

    A call either returns or ends the process: [exit(1)] after a failed
    [mmap], a failed [assert], a dereference of a pointer that holds no
    Region, or a loop that never ends. *)

Inductive stop : Type :=
  | MapFailed
  | AssertFailed
  | BadPointer
  | Loops.

Inductive outcome (A : Type) : Type :=
  | Ok (a : A)
  | Stop (e : stop).

Arguments Ok {A} a.
Arguments Stop {A} e.

#[global] Instance outcome_ret : MRet outcome := fun A a => Ok a.
#[global] Instance outcome_bind : MBind outcome :=
  fun A B f c => match c with Ok a => f a | Stop e => Stop e end.

(** ** Memory *)

(** A live mapping: base address and length. *)
Definition block : Type := Z * Z.

(** [struct _Region]; [data] records the payload bytes that differ from
    the zero fill [mmap] provides, by offset. *)
Record Region : Type := mkRegion {
  next : option Z;
  tail : Z;
  capacity : Z;
  data : gmap Z byte;
}.

Definition set_next (r : Region) (n : option Z) : Region :=
  {| next := n; tail := tail r; capacity := capacity r; data := data r |}.

Definition set_tail (r : Region) (t : Z) : Region :=
  {| next := next r; tail := t; capacity := capacity r; data := data r |}.

(** The process memory that concerns one arena: the kernel's live
    mappings, the [Arena*] handle, the two scalar fields of
    [struct _Arena], and every Region struct by address.  The embedded
    first region is the one at [arena + offsetof(Arena, first)]. *)
Record State : Type := mkState {
  mappings : list block;
  arena : Z;
  last : Z;
  new_region_capacity : Z;
  regions : gmap Z Region;
}.

(** [&arena->first] *)
Definition first (s : State) : Z := arena s + ARENA_FIRST_OFFSET.

Definition set_regions (s : State) (h : gmap Z Region) : State :=
  {| mappings := mappings s; arena := arena s; last := last s;
     new_region_capacity := new_region_capacity s; regions := h |}.

(** [&region->data[0]] *)
Definition data_addr (region : Z) : Z := region + REGION_HEADER_SIZE.

Definition overlap (b c : block) : bool :=
  (b.1 <? c.1 + c.2) && (c.1 <? b.1 + b.2).

(** The requests [region_alloc] asserts, for [size_t] arguments. *)
Definition valid_request (size alignment : Z) : bool :=
  (0 <? size) && (size <=? SIZE_MAX) &&
  (0 <=? alignment) && (alignment <=? MAX_ALIGN) && is_power_of_two alignment.

(** What a call hands back to its caller. *)
Record allocation : Type := mkAllocation {
  a_ptr : Z;
  a_size : Z;
  a_alignment : Z;
}.

Definition disjoint (x y : allocation) : Prop :=
  a_ptr x + a_size x <= a_ptr y \/ a_ptr y + a_size y <= a_ptr x.

Definition record_result (p : option Z) (size alignment : Z)
    (log : list allocation) : list allocation :=
  match p with
  | Some q => mkAllocation q size alignment :: log
  | None => log
  end.

Section Arena.

(** [sysconf(_SC_PAGE_SIZE)] is [2 ^ page_shift]. *)
Variable page_shift : Z.

Definition page_size : Z := 2 ^ page_shift.

(** [static inline size_t align_to_page(size_t n)] *)
Definition align_to_page (n : Z) : Z := align n page_size.

(** [mmap(NULL, len, PROT_READ | PROT_WRITE, MAP_PRIVATE | MAP_ANONYMOUS, -1, 0)].
    [pick] is the kernel's choice: [None] when it refuses, [Some p] when it
    would place the block at [p].  A zero length is refused (EINVAL); a
    placement is honoured only when it is a page-aligned, non-null
    address, the block ends inside the address space and overlaps no live
    mapping.  Every length this program passes is a multiple of the page
    size, so the mapped extent is the length itself. *)
Definition mmap (os : list block) (pick : option Z) (len : Z) : option Z :=
  match pick with
  | Some p =>
      if (len >? 0) && (p >? 0) && (p mod page_size =? 0)
         && (p + len <=? 2 ^ SIZE_BITS)
         && forallb (fun b => negb (overlap (p, len) b)) os
      then Some p else None
  | None => None
  end.

(** [static void* alloc_mem(size_t size)] *)
Definition alloc_mem (os : list block) (pick : option Z) (size : Z)
    : outcome (Z * list block) :=
  match mmap os pick size with
  | Some result => Ok (result, (result, size) :: os)
  | None => Stop MapFailed
  end.

(** [static Region* create_region(size_t capacity)] *)
Definition create_region (os : list block) (h : gmap Z Region)
    (pick : option Z) (capacity : Z)
    : outcome (Z * list block * gmap Z Region) :=
  let mem_size := align_to_page (size_t (capacity + REGION_HEADER_SIZE)) in
  '(region, os') ← alloc_mem os pick mem_size;
  Ok (region, os',
      <[region := {| next := None; tail := 0;
                     capacity := size_t (mem_size - REGION_HEADER_SIZE);
                     data := ∅ |}]> h).

(** [static void* region_alloc(Region* region, size_t size, size_t alignment)] *)
Definition region_alloc (h : gmap Z Region) (region size alignment : Z)
    : outcome (option Z * gmap Z Region) :=
  if negb (size >? 0) then Stop AssertFailed else
  if negb ((alignment <=? MAX_ALIGN) && is_power_of_two alignment)
  then Stop AssertFailed else
  match h !! region with
  | None => Stop BadPointer
  | Some r =>
      let start := align (tail r) alignment in
      if start >=? capacity r then Ok (None, h) else
      let bytes_available := size_t (capacity r - start) in
      if size >? bytes_available then Ok (None, h) else
      let result := data_addr region + start in
      Ok (Some result, <[region := set_tail r (size_t (start + size))]> h)
  end.

(** [static void* new_region_alloc(Arena* arena, size_t size, size_t alignment)] *)
Definition new_region_alloc (s : State) (pick : option Z)
    (size alignment : Z) : outcome (option Z * State) :=
  '(new_region, os', h1) ←
    create_region (mappings s) (regions s) pick
                  (max size (new_region_capacity s));
  match h1 !! last s with
  | None => Stop BadPointer
  | Some l =>
      let h2 := <[last s := set_next l (Some new_region)]> h1 in
      '(result, h3) ← region_alloc h2 new_region size alignment;
      Ok (result,
          {| mappings := os'; arena := arena s; last := new_region;
             new_region_capacity := new_region_capacity s; regions := h3 |})
  end.

(** [Arena* create_arena(size_t capacity)] *)
Definition create_arena (os : list block) (pick : option Z) (capacity : Z)
    : outcome State :=
  let mem_size := align_to_page (size_t (capacity + ARENA_HEADER_SIZE)) in
  '(arena, os') ← alloc_mem os pick mem_size;
  Ok {| mappings := os'; arena := arena;
        last := arena + ARENA_FIRST_OFFSET;
        new_region_capacity := capacity;
        regions :=
          {[ arena + ARENA_FIRST_OFFSET :=
               {| next := None; tail := 0;
                  capacity := size_t (mem_size - ARENA_HEADER_SIZE);
                  data := ∅ |} ]} |}.

(** [void set_region_capacity(Arena* arena, size_t capacity)] *)
Definition set_region_capacity (s : State) (capacity : Z) : State :=
  {| mappings := mappings s; arena := arena s; last := last s;
     new_region_capacity := capacity; regions := regions s |}.

(** [void* _arena_alloc(Arena* arena, size_t size, size_t alignment)] *)
Definition _arena_alloc (s : State) (pick : option Z) (size alignment : Z)
    : outcome (option Z * State) :=
  '(result, h) ← region_alloc (regions s) (last s) size alignment;
  match result with
  | Some p => Ok (Some p, set_regions s h)
  | None => new_region_alloc (set_regions s h) pick size alignment
  end.

(** The loop of [_arena_fit].  [region] is the loop variable and [fuel]
    bounds the iterations.  An iteration whose [region_alloc] fails leaves
    memory as it was, so a walk that is still going after one iteration
    more than there are Region structs has entered a cycle of Regions
    without room and goes on forever ([fit_loop_fuel_exact]). *)
Fixpoint fit_loop (fuel : nat) (h : gmap Z Region) (region : option Z)
    (size alignment : Z) : outcome (option Z * gmap Z Region) :=
  match region with
  | None => Ok (None, h)
  | Some p =>
      match fuel with
      | O => Stop Loops
      | S fuel' =>
          '(result, h') ← region_alloc h p size alignment;
          match result with
          | Some q => Ok (Some q, h')
          | None =>
              match h' !! p with
              | None => Stop BadPointer
              | Some r => fit_loop fuel' h' (next r) size alignment
              end
          end
      end
  end.

(** [void* _arena_fit(Arena* arena, size_t size, size_t alignment)] *)
Definition _arena_fit (s : State) (pick : option Z) (size alignment : Z)
    : outcome (option Z * State) :=
  '(result, h) ← fit_loop (S (base.size (regions s))) (regions s)
                          (Some (first s)) size alignment;
  match result with
  | Some p => Ok (Some p, set_regions s h)
  | None => new_region_alloc (set_regions s h) pick size alignment
  end.

(** ** Release *)

(** [munmap(p, len)]: the kernel refuses (EINVAL) a zero length, an
    address that is not a multiple of the page size and a range that
    leaves the address space; otherwise it unmaps every page that holds a
    byte of the range, that is [round_up len page_size] bytes from [p]. *)
Definition munmap_range (p len : Z) : option block :=
  let len' := round_up len page_size in
  if (len >? 0) && (p mod page_size =? 0) && (p + len' <=? 2 ^ SIZE_BITS)
  then Some (p, len') else None.

(** What is left of the mapping [b] once the range [u] is unmapped. *)
Definition cut (u b : block) : list block :=
  if overlap u b then
    (if b.1 <? u.1 then [(b.1, u.1 - b.1)] else []) ++
    (if u.1 + u.2 <? b.1 + b.2
     then [(u.1 + u.2, b.1 + b.2 - (u.1 + u.2))] else [])
  else [b].

Definition munmap (os : list block) (p len : Z) : list block :=
  match munmap_range p len with
  | Some u => flat_map (cut u) os
  | None => os
  end.

(** [static inline void free_mem(void* ptr, size_t size)].  The result of
    [munmap] is not looked at.  A Region struct whose header has a byte
    in an unmapped page is gone with it. *)
Definition free_mem (os : list block) (h : gmap Z Region) (ptr size : Z)
    : list block * gmap Z Region :=
  (munmap os ptr size,
   match munmap_range ptr size with
   | Some u =>
       filter (fun kv : Z * Region =>
                 overlap (kv.1, REGION_HEADER_SIZE) u = false) h
   | None => h
   end).

(** [static inline void free_region(Region* region)], with the arguments
    it hands to [free_mem]. *)
Definition free_region (os : list block) (h : gmap Z Region) (region : Z)
    : outcome (list block * gmap Z Region * block) :=
  match h !! region with
  | None => Stop BadPointer
  | Some r =>
      let size := size_t (capacity r + REGION_HEADER_SIZE) in
      Ok (free_mem os h region size, (region, size))
  end.

(** [static inline void free_arena(Arena* arena)] *)
Definition free_arena (os : list block) (h : gmap Z Region) (arena : Z)
    : outcome (list block * gmap Z Region * block) :=
  match h !! (arena + ARENA_FIRST_OFFSET) with
  | None => Stop BadPointer
  | Some f =>
      let size := size_t (capacity f + ARENA_HEADER_SIZE) in
      Ok (free_mem os h arena size, (arena, size))
  end.

(** The loop of [delete_arena]; [released] collects the blocks handed to
    [free_mem], in order.  [fuel] bounds the iterations: an outcome other
    than [Loops] does not depend on it ([delete_loop_more_fuel]). *)
Fixpoint delete_loop (fuel : nat) (os : list block) (h : gmap Z Region)
    (region : option Z) (released : list block)
    : outcome (list block * gmap Z Region * list block) :=
  match region with
  | None => Ok (os, h, released)
  | Some p =>
      match fuel with
      | O => Stop Loops
      | S fuel' =>
          match h !! p with
          | None => Stop BadPointer
          | Some r =>
              if negb (tail r <=? capacity r) then Stop AssertFailed else
              let next_region := next r in
              '(os', h', b) ← free_region os h p;
              delete_loop fuel' os' h' next_region (released ++ [b])
          end
      end
  end.

(** [void delete_arena(Arena* arena)]: the mappings and the Region
    structs it leaves, and the blocks it released.  Between two
    iterations that unmap a struct the loop visits each struct at most
    once unless it has entered a cycle, so the square of one more than
    the number of structs bounds the iterations of every loop that
    ends. *)
Definition delete_arena (s : State)
    : outcome (list block * gmap Z Region * list block) :=
  match regions s !! first s with
  | None => Stop BadPointer
  | Some f =>
      let n := S (base.size (regions s)) in
      '(os, h, released) ←
        delete_loop (n * n) (mappings s) (regions s) (next f) [];
      match h !! first s with
      | None => Stop BadPointer
      | Some f' =>
          if negb (tail f' <=? capacity f') then Stop AssertFailed else
          '(os', h', b) ← free_arena os h (arena s);
          Ok (os', h', released ++ [b])
      end
  end.

(** ** The typed entry points of arena.h *)

(** What the macros use of [element_type]. *)
Record ctype : Type := mkCtype {
  sizeof : Z;
  alignof : Z;
}.

(** [#define arena_alloc(arena, num_elements, element_type)]: the product
    is formed in [size_t]. *)
Definition arena_alloc (s : State) (pick : option Z) (num_elements : Z)
    (element_type : ctype) : outcome (option Z * State) :=
  _arena_alloc s pick (size_t (num_elements * sizeof element_type))
               (alignof element_type).

(** [#define arena_fit(arena, num_elements, element_type)] *)
Definition arena_fit (s : State) (pick : option Z) (num_elements : Z)
    (element_type : ctype) : outcome (option Z * State) :=
  _arena_fit s pick (size_t (num_elements * sizeof element_type))
             (alignof element_type).

(** * The data model's invariants and sample states *)

(** ** The chain of regions *)

(** [is_chain h p l]: following [next] from [p] visits exactly the
    addresses [l], in order, and ends at a region whose [next] is null. *)
Inductive is_chain (h : gmap Z Region) : Z -> list Z -> Prop :=
  | chain_end p r :
      h !! p = Some r -> next r = None -> is_chain h p [p]
  | chain_link p r q l :
      h !! p = Some r -> next r = Some q -> is_chain h q l ->
      is_chain h p (p :: l).

(** One iteration of the loop of [_arena_fit] that fails at [p] and moves
    on to [q]; [walk h size alignment x l y]: the iterations that start at
    [x] fail at each Region of [l] in turn and leave the loop variable at
    [y]. *)
Definition hop (h : gmap Z Region) (size alignment : Z) (p q : Z) : Prop :=
  exists r, h !! p = Some r /\
    region_alloc h p size alignment = Ok (None, h) /\ next r = Some q.

Inductive walk (h : gmap Z Region) (size alignment : Z)
    : Z -> list Z -> Z -> Prop :=
  | walk_here x : walk h size alignment x [] x
  | walk_hop x q l y :
      hop h size alignment x q -> walk h size alignment q l y ->
      walk h size alignment x (x :: l) y.

(** ** Invariants of the data model *)

(** A Region's cursor stays inside its payload, and the header with the
    payload fits the address space. *)
Definition region_ok (r : Region) : Prop :=
  0 <= tail r <= capacity r /\
  capacity r + REGION_HEADER_SIZE <= 2 ^ SIZE_BITS.

(** The specification's "sufficient contiguous free space at the
    requested alignment". *)
Definition has_room (r : Region) (size alignment : Z) : bool :=
  round_up (tail r) alignment + size <=? capacity r.

(** Header and payload of the Region at [p]: the bytes from [p] up to
    [region_end p r]. *)
Definition region_end (p : Z) (r : Region) : Z :=
  data_addr p + capacity r.

Record arena_ok (s : State) : Prop := mkArenaOk {
  ok_chain : exists l,
    is_chain (regions s) (first s) l /\ NoDup l /\ list.last l = Some (last s);
  ok_regions : forall p r, regions s !! p = Some r -> region_ok r;
  ok_mapped : forall p r, regions s !! p = Some r ->
    exists b, b ∈ mappings s /\ b.1 <= p /\ region_end p r <= b.1 + b.2;
  ok_apart : forall p q r r', p <> q ->
    regions s !! p = Some r -> regions s !! q = Some r' ->
    region_end p r <= q \/ region_end q r' <= p;
  ok_placed : forall p r, regions s !! p = Some r -> p mod MAX_ALIGN = 0;
}.

(** Every logged block answers a valid request and lies below the cursor
    of some Region, at an offset that is a multiple of its alignment. *)
Definition log_ok (s : State) (log : list allocation) : Prop :=
  forall a, a ∈ log ->
    valid_request (a_size a) (a_alignment a) = true /\
    exists p r, regions s !! p = Some r /\
      data_addr p <= a_ptr a /\ a_ptr a + a_size a <= data_addr p + tail r /\
      (a_ptr a - data_addr p) mod a_alignment a = 0.

Fixpoint pairwise_disjoint (log : list allocation) : Prop :=
  match log with
  | [] => True
  | a :: log' => Forall (disjoint a) log' /\ pairwise_disjoint log'
  end.

(** What every execution maintains. *)
Definition sound (s : State) (log : list allocation) : Prop :=
  arena_ok s /\ log_ok s log /\ pairwise_disjoint log.

(** The growth step of [new_region_alloc], up to the final
    [region_alloc]: the new Region is linked after [last] and becomes
    [last]. *)
Definition grown (s : State) (os' : list block) (new : Z) (l : Region)
    (h1 : gmap Z Region) : State :=
  {| mappings := os'; arena := arena s; last := new;
     new_region_capacity := new_region_capacity s;
     regions := <[last s := set_next l (Some new)]> h1 |}.

(** The Region at [p], if any, cannot serve the request. *)
Definition roomless (h : gmap Z Region) (size alignment : Z) (p : Z) : Prop :=
  forall r, h !! p = Some r -> has_room r size alignment = false.

(** The state after the Region [r] at [p] has served a request. *)
Definition bump (s : State) (p : Z) (r : Region) (size alignment : Z)
    : State :=
  set_regions s
    (<[p := set_tail r (round_up (tail r) alignment + size)]> (regions s)).

(** ** What one call of [alloc] or [fit] does to the state *)

(** Some Region with room has served the request. *)
Definition served (s : State) (size alignment : Z) (s' : State) : Prop :=
  exists p r, regions s !! p = Some r /\
    has_room r size alignment = true /\ s' = bump s p r size alignment.

(** A Region has been created and linked after [last]. *)
Definition extended (s g : State) : Prop :=
  exists pick cap new os' h1 l,
    create_region (mappings s) (regions s) pick cap = Ok (new, os', h1) /\
    regions s !! last s = Some l /\ g = grown s os' new l h1.

Definition step_shape (s : State) (size alignment : Z) (s' : State) : Prop :=
  served s size alignment s' \/
  exists g, extended s g /\ (s' = g \/ served g size alignment s').

(** ** The blocks an arena owns *)

(** The block [delete_arena] hands to [free_mem] for the Region at [p]:
    the arena's own block for the embedded first region. *)
Definition block_of (s : State) (p : Z) : block :=
  match regions s !! p with
  | Some r =>
      if p =? first s then (arena s, capacity r + ARENA_HEADER_SIZE)
      else (p, capacity r + REGION_HEADER_SIZE)
  | None => (p, 0)
  end.

(** [tidy s l os0]: the Region structs are those of the chain [l]; the
    live mappings are the blocks of the chain, newest first, on top of
    the mappings [os0] the arena does not own; the blocks are whole pages
    inside the address space and overlap neither one another nor
    [os0]. *)
Record tidy (s : State) (l : list Z) (os0 : list block) : Prop := mkTidy {
  tidy_chain : is_chain (regions s) (first s) l;
  tidy_nodup : NoDup l;
  tidy_dom : forall p, is_Some (regions s !! p) -> p ∈ l;
  tidy_mappings : mappings s = map (block_of s) (rev l) ++ os0;
  tidy_blocks : forall p, p ∈ l ->
    0 < (block_of s p).1 /\ (block_of s p).1 mod page_size = 0 /\
    (exists q, 0 < q /\ (block_of s p).2 = q * page_size) /\
    (block_of s p).1 + (block_of s p).2 <= 2 ^ SIZE_BITS;
  tidy_apart : forall p q, p ∈ l -> q ∈ l -> p <> q ->
    overlap (block_of s p) (block_of s q) = false;
  tidy_rest : forall p b, p ∈ l -> b ∈ os0 ->
    overlap (block_of s p) b = false;
}.

(** The Region structs at the addresses [X]. *)
Definition kept (X : list Z) (h : gmap Z Region) : gmap Z Region :=
  filter (fun kv : Z * Region => kv.1 ∈ X) h.

(** ** Concrete states, on 4 KiB pages *)

Definition PAGE_SHIFT : Z := 12.

Definition empty_region (cap : Z) : Region :=
  {| next := None; tail := 0; capacity := cap; data := ∅ |}.

(** [create_arena(64)], the kernel placing the block at 4096. *)
Definition demo0 : State :=
  {| mappings := [(4096, 4096)]; arena := 4096; last := 4112;
     new_region_capacity := 64;
     regions := {[ 4112 := empty_region 4056 ]} |}.

(** Then [_arena_alloc(arena, 4051, 1)]: 5 bytes stay free. *)
Definition demo1 : State :=
  set_regions demo0 {[ 4112 := set_tail (empty_region 4056) 4051 ]}.

(** Then [_arena_alloc(arena, 4022, 1)]: a second Region at 8192, with
    50 bytes free. *)
Definition demo2 : State :=
  {| mappings := [(8192, 4096); (4096, 4096)]; arena := 4096; last := 8192;
     new_region_capacity := 64;
     regions :=
       <[ 8192 := set_tail (empty_region 4072) 4022 ]>
         {[ 4112 := set_next (set_tail (empty_region 4056) 4051)
                             (Some 8192) ]} |}.

Definition demo_log1 : list allocation := [mkAllocation 4136 4051 1].

Definition demo_log2 : list allocation :=
  mkAllocation 8216 4022 1 :: demo_log1.

(** Then [set_region_capacity(arena, 128)] and a request that no Region
    can serve (scenario B): a third Region at 16384. *)
Definition demo3 : State :=
  {| mappings := [(16384, 4096); (8192, 4096); (4096, 4096)];
     arena := 4096; last := 16384; new_region_capacity := 128;
     regions :=
       <[ 16384 := set_tail (empty_region 4072) 100 ]>
         (<[ 8192 := set_next (set_tail (empty_region 4072) 4022)
                              (Some 16384) ]>
            {[ 4112 := set_next (set_tail (empty_region 4056) 4051)
                                (Some 8192) ]}) |}.

(** [create_arena(4066)]: two pages, a first region of 8152 bytes. *)
Definition wide0 : State :=
  {| mappings := [(4096, 8192)]; arena := 4096; last := 4112;
     new_region_capacity := 4066;
     regions := {[ 4112 := empty_region 8152 ]} |}.

(** Growth from [wide0] on a 10-byte request: one page, sized from the
    4066 that was asked for and not from the 8152 that the first region
    got. *)
Definition wide1 : State :=
  {| mappings := [(12288, 4096); (4096, 8192)]; arena := 4096;
     last := 12288; new_region_capacity := 4066;
     regions :=
       <[ 12288 := set_tail (empty_region 4072) 10 ]>
         {[ 4112 := set_next (empty_region 8152) (Some 12288) ]} |}.

(** From [demo0]: [_arena_alloc(arena, 4050, 1)] leaves 6 bytes free in
    the first region; [_arena_alloc(arena, 10, 1)] creates a second
    Region; [_arena_alloc(arena, 4060, 1)] leaves it 2 bytes; then
    [_arena_alloc(arena, 5, 1)] creates a third. *)
Definition gap1 : State :=
  set_regions demo0 {[ 4112 := set_tail (empty_region 4056) 4050 ]}.

Definition gap2 : State :=
  {| mappings := [(8192, 4096); (4096, 4096)]; arena := 4096; last := 8192;
     new_region_capacity := 64;
     regions :=
       <[ 8192 := set_tail (empty_region 4072) 10 ]>
         {[ 4112 := set_next (set_tail (empty_region 4056) 4050)
                             (Some 8192) ]} |}.

Definition gap3 : State :=
  set_regions gap2
    (<[ 8192 := set_tail (empty_region 4072) 4070 ]> (regions gap2)).

Definition gap4 : State :=
  {| mappings := [(12288, 4096); (8192, 4096); (4096, 4096)];
     arena := 4096; last := 12288; new_region_capacity := 64;
     regions :=
       <[ 12288 := set_tail (empty_region 4072) 5 ]>
         (<[ 8192 := set_next (set_tail (empty_region 4072) 4070)
                              (Some 12288) ]>
            (regions gap3)) |}.

(** From [demo0]: [_arena_alloc(arena, SIZE_MAX - 22, 1)], whose size
    wraps with the header: a second Region of one page, left empty. *)
Definition wrapped1 : State :=
  {| mappings := [(8192, 4096); (4096, 4096)]; arena := 4096; last := 8192;
     new_region_capacity := 64;
     regions :=
       <[ 8192 := empty_region 4072 ]>
         {[ 4112 := set_next (empty_region 4056) (Some 8192) ]} |}.

(** An 8-byte element type aligned to 8, such as [double]. *)
Definition double_t : ctype := {| sizeof := 8; alignof := 8 |}.

(** ** Executions

    [run s log]: the state [s] is what [create] followed by valid calls
    of [alloc], [fit] and [set_region_capacity] leaves, and [log] lists
    the blocks those calls returned, latest first. *)
Inductive run : State -> list allocation -> Prop :=
  | run_create os pick capacity s :
      in_size_t capacity ->
      create_arena os pick capacity = Ok s ->
      run s []
  | run_set_region_capacity s log capacity :
      run s log ->
      in_size_t capacity ->
      run (set_region_capacity s capacity) log
  | run_alloc s log pick size alignment p s' :
      run s log ->
      valid_request size alignment = true ->
      _arena_alloc s pick size alignment = Ok (p, s') ->
      run s' (record_result p size alignment log)
  | run_fit s log pick size alignment p s' :
      run s log ->
      valid_request size alignment = true ->
      _arena_fit s pick size alignment = Ok (p, s') ->
      run s' (record_result p size alignment log).


(** * Properties *)

(** ** Facts about [size_t] and [align] *)

(** Linear arithmetic once the platform constants are unfolded. *)
Ltac size_lia :=
  unfold in_size_t, SIZE_MAX, SIZE_BITS, MAX_ALIGN, ARENA_HEADER_SIZE,
    ARENA_FIRST_OFFSET, REGION_HEADER_SIZE in *;
  lia.

Example align_rounds_up : align 13 8 = 16 /\ align 16 8 = 16 /\ align 0 16 = 0.
Proof. repeat split. Qed.

Example align_wraps : align SIZE_MAX 16 = 0 /\ round_up SIZE_MAX 16 = 2 ^ 64.
Proof. split; reflexivity. Qed.

Example is_power_of_two_examples :
  is_power_of_two 16 = true /\ is_power_of_two 12 = false /\
  is_power_of_two 0 = false.
Proof. repeat split. Qed.

Lemma size_t_range z : 0 <= size_t z <= SIZE_MAX.
Proof.
  unfold size_t, SIZE_MAX, SIZE_BITS.
  pose proof (Z.mod_pos_bound z (2 ^ 64) ltac:(lia)). lia.
Qed.

Lemma size_t_id z : in_size_t z -> size_t z = z.
Proof.
  unfold in_size_t, size_t, SIZE_MAX, SIZE_BITS. intros H.
  apply Z.mod_small. lia.
Qed.

Lemma land_size_lnot x a :
  0 <= x < 2 ^ 64 -> Z.land x (size_t (Z.lnot a)) = Z.ldiff x a.
Proof.
  intros Hx. apply Z.bits_inj'. intros i Hi.
  rewrite Z.land_spec, Z.ldiff_spec. unfold size_t, SIZE_BITS.
  destruct (Z_lt_ge_dec i 64) as [Hlt | Hge].
  - rewrite Z.mod_pow2_bits_low by lia. now rewrite Z.lnot_spec by lia.
  - assert (Z.testbit x i = false) as ->; [| reflexivity].
    destruct (Z.eq_dec x 0) as [-> | Hne]; [apply Z.bits_0 |].
    apply Z.bits_above_log2; [lia |].
    apply Z.lt_le_trans with 64; [| lia].
    apply Z.log2_lt_pow2; lia.
Qed.

(** On a power of two, [align] clears the low bits of the wrapped sum. *)
Lemma align_pow2 n k :
  0 <= k < 64 ->
  align n (2 ^ k) = 2 ^ k * (size_t (n + (2 ^ k - 1)) / 2 ^ k).
Proof.
  intros Hk. unfold align.
  assert (0 < 2 ^ k) by (apply Z.pow_pos_nonneg; lia).
  assert (2 ^ k < 2 ^ 64) by (apply Z.pow_lt_mono_r; lia).
  destruct (2 ^ k >? 0) eqn:E; [| lia]. cbv zeta.
  rewrite (size_t_id (2 ^ k - 1))
    by (unfold in_size_t, SIZE_MAX, SIZE_BITS; lia).
  rewrite land_size_lnot
    by (pose proof (size_t_range (n + (2 ^ k - 1))) as Hr;
        unfold SIZE_MAX, SIZE_BITS in Hr; lia).
  replace (2 ^ k - 1) with (Z.ones k) by (rewrite Z.ones_equiv; lia).
  rewrite Z.ldiff_ones_r by lia.
  rewrite Z.shiftr_div_pow2, Z.shiftl_mul_pow2 by lia. lia.
Qed.

(** Without wrap-around [align] is the specification's [round_up]. *)
Lemma align_round_up n k :
  0 <= k < 64 -> 0 <= n -> n + (2 ^ k - 1) <= SIZE_MAX ->
  align n (2 ^ k) = round_up n (2 ^ k).
Proof.
  intros Hk Hn Hs. rewrite align_pow2 by done.
  assert (0 < 2 ^ k) by (apply Z.pow_pos_nonneg; lia).
  rewrite size_t_id by (unfold in_size_t; lia).
  unfold round_up. do 2 f_equal. lia.
Qed.

Lemma round_up_spec n a :
  0 < a -> n <= round_up n a < n + a /\ round_up n a mod a = 0.
Proof.
  intros Ha. unfold round_up.
  pose proof (Z.div_mod (n + a - 1) a ltac:(lia)) as Hd.
  pose proof (Z.mod_pos_bound (n + a - 1) a Ha) as Hb.
  split; [lia |].
  rewrite Z.mul_comm. apply Z.mod_mul. lia.
Qed.

Lemma land_range x y : 0 <= x < 2 ^ 64 -> 0 <= Z.land x y < 2 ^ 64.
Proof.
  intros Hx.
  assert (Z.land x y = Z.land x y mod 2 ^ 64) as ->.
  { rewrite <- (Z.land_ones (Z.land x y)) by lia.
    rewrite <- Z.land_assoc, (Z.land_comm y), Z.land_assoc.
    rewrite (Z.land_ones x) by lia. now rewrite (Z.mod_small x) by lia. }
  apply Z.mod_pos_bound. lia.
Qed.

Lemma align_range n alignment :
  in_size_t n -> in_size_t (align n alignment).
Proof.
  intros Hn. unfold align. destruct (alignment >? 0); [| exact Hn].
  cbv zeta.
  pose proof (size_t_range (n + size_t (alignment - 1))) as H1.
  unfold in_size_t, SIZE_MAX, SIZE_BITS in *.
  pose proof (land_range (size_t (n + size_t (alignment - 1)))
                (size_t (Z.lnot (size_t (alignment - 1)))) ltac:(lia)).
  lia.
Qed.

Lemma is_power_of_two_pow2 k : 0 <= k < 64 -> is_power_of_two (2 ^ k) = true.
Proof.
  intros Hk. unfold is_power_of_two.
  assert (0 < 2 ^ k) by (apply Z.pow_pos_nonneg; lia).
  assert (2 ^ k < 2 ^ 64) by (apply Z.pow_lt_mono_r; lia).
  rewrite size_t_id by (unfold in_size_t, SIZE_MAX, SIZE_BITS; lia).
  replace (2 ^ k - 1) with (Z.ones k) by (rewrite Z.ones_equiv; lia).
  rewrite Z.land_ones by lia. rewrite Z.mod_same by lia.
  apply andb_true_iff.
  split; [apply negb_true_iff, Z.eqb_neq | apply Z.eqb_eq]; lia.
Qed.

(** ** Requests *)

Lemma valid_request_inv size alignment :
  valid_request size alignment = true ->
  0 < size <= SIZE_MAX /\ exists k, 0 <= k <= 4 /\ alignment = 2 ^ k.
Proof.
  unfold valid_request, MAX_ALIGN. intros H.
  repeat (apply andb_true_iff in H as [H ?]).
  split; [lia |].
  assert (alignment = 0 \/ alignment = 1 \/ alignment = 2 \/ alignment = 3
          \/ alignment = 4 \/ alignment = 5 \/ alignment = 6 \/ alignment = 7
          \/ alignment = 8 \/ alignment = 9 \/ alignment = 10
          \/ alignment = 11 \/ alignment = 12 \/ alignment = 13
          \/ alignment = 14 \/ alignment = 15 \/ alignment = 16) as Hcases
    by lia.
  repeat (destruct Hcases as [-> | Hcases]); try subst alignment;
    try discriminate;
    first [ exists 0; split; [lia | reflexivity]
          | exists 1; split; [lia | reflexivity]
          | exists 2; split; [lia | reflexivity]
          | exists 3; split; [lia | reflexivity]
          | exists 4; split; [lia | reflexivity] ].
Qed.

(** The assertions of [region_alloc] admit exactly the requests the
    specification calls valid: a nonzero size and one of the alignments
    1, 2, 4, 8, 16. *)
Lemma valid_request_iff size alignment :
  valid_request size alignment = true <->
  0 < size <= SIZE_MAX /\ exists k, 0 <= k <= 4 /\ alignment = 2 ^ k.
Proof.
  split; [apply valid_request_inv |].
  intros [Hs (k & Hk & ->)]. unfold valid_request.
  assert (k = 0 \/ k = 1 \/ k = 2 \/ k = 3 \/ k = 4) as Hcases by lia.
  assert ((0 <? size) && (size <=? SIZE_MAX) = true) as ->
    by (apply andb_true_iff; split; lia).
  destruct Hcases as [-> | [-> | [-> | [-> | ->]]]]; reflexivity.
Qed.

Lemma valid_request_asserts size alignment :
  valid_request size alignment = true ->
  negb (size >? 0) = false /\
  negb ((alignment <=? MAX_ALIGN) && is_power_of_two alignment) = false.
Proof.
  unfold valid_request. intros H.
  repeat (apply andb_true_iff in H as [H ?]).
  split.
  - apply negb_false_iff. lia.
  - apply negb_false_iff, andb_true_iff. split; assumption.
Qed.

(** ** [region_alloc] *)

(** The body of [region_alloc] once its assertions hold. *)
Lemma region_alloc_unfold h p r size alignment :
  valid_request size alignment = true ->
  h !! p = Some r ->
  region_alloc h p size alignment =
    let start := align (tail r) alignment in
    if start >=? capacity r then Ok (None, h) else
    if size >? size_t (capacity r - start) then Ok (None, h) else
    Ok (Some (data_addr p + start),
        <[p := set_tail r (size_t (start + size))]> h).
Proof.
  intros Hv Hp. unfold region_alloc.
  destruct (valid_request_asserts _ _ Hv) as [-> ->].
  now rewrite Hp.
Qed.

(** On a Region that satisfies the data model's invariant the rounding
    cannot wrap. *)
Lemma align_tail r size alignment :
  region_ok r -> valid_request size alignment = true ->
  align (tail r) alignment = round_up (tail r) alignment.
Proof.
  intros [Ht Hc] Hv.
  destruct (valid_request_inv _ _ Hv) as [_ (k & Hk & ->)].
  assert (2 ^ k <= 2 ^ 4) by (apply Z.pow_le_mono_r; lia).
  apply align_round_up; [lia | lia |].
  change (2 ^ 4) with 16 in *. size_lia.
Qed.

Lemma round_up_tail r size alignment :
  valid_request size alignment = true ->
  tail r <= round_up (tail r) alignment < tail r + alignment /\
  round_up (tail r) alignment mod alignment = 0.
Proof.
  intros Hv. destruct (valid_request_inv _ _ Hv) as [_ (k & Hk & ->)].
  apply round_up_spec. apply Z.pow_pos_nonneg; lia.
Qed.

Lemma region_alloc_spec h p r size alignment :
  h !! p = Some r -> region_ok r ->
  valid_request size alignment = true ->
  region_alloc h p size alignment =
    if has_room r size alignment
    then Ok (Some (data_addr p + round_up (tail r) alignment),
             <[p := set_tail r (round_up (tail r) alignment + size)]> h)
    else Ok (None, h).
Proof.
  intros Hp Hr Hv. rewrite (region_alloc_unfold _ _ r) by assumption.
  cbv zeta. rewrite (align_tail r size) by assumption.
  destruct (round_up_tail r size alignment Hv) as [Hs _].
  destruct (valid_request_inv _ _ Hv) as [Hsize _].
  destruct Hr as [Ht Hc]. unfold has_room, REGION_HEADER_SIZE in *.
  set (start := round_up (tail r) alignment) in *.
  destruct (start >=? capacity r) eqn:E1.
  - destruct (start + size <=? capacity r) eqn:E2; [lia | reflexivity].
  - rewrite (size_t_id (capacity r - start)) by size_lia.
    destruct (size >? capacity r - start) eqn:E3.
    + destruct (start + size <=? capacity r) eqn:E2; [lia | reflexivity].
    + destruct (start + size <=? capacity r) eqn:E2; [| lia].
      rewrite size_t_id by size_lia. reflexivity.
Qed.

(** C2: on a Region that satisfies the data model's invariant and a valid
    request, Region allocation computes [start = round_up(tail, alignment)],
    reports no-space when [start >= capacity], reports no-space when
    [size > capacity - start], and otherwise sets [tail] to [start + size]
    and returns the address of [data[start]]. *)
Theorem region_alloc_algorithm h p r size alignment :
  h !! p = Some r -> region_ok r ->
  valid_request size alignment = true ->
  region_alloc h p size alignment =
    let start := round_up (tail r) alignment in
    if start >=? capacity r then Ok (None, h) else
    let bytes_available := capacity r - start in
    if size >? bytes_available then Ok (None, h) else
    Ok (Some (data_addr p + start), <[p := set_tail r (start + size)]> h).
Proof.
  intros Hp Hr Hv. rewrite (region_alloc_unfold _ _ r) by assumption.
  cbv zeta. rewrite (align_tail r size) by assumption.
  destruct (round_up_tail r size alignment Hv) as [Hs _].
  destruct (valid_request_inv _ _ Hv) as [Hsize _].
  destruct Hr as [Ht Hc]. unfold REGION_HEADER_SIZE in Hc.
  set (start := round_up (tail r) alignment) in *.
  destruct (start >=? capacity r) eqn:E1; [reflexivity |].
  rewrite (size_t_id (capacity r - start)) by size_lia.
  destruct (size >? capacity r - start) eqn:E2; [reflexivity |].
  rewrite size_t_id by size_lia. reflexivity.
Qed.

(** C9: when Region allocation reports no-space the memory is the one it
    started from: the Region's [tail], [capacity], [next] link and payload
    are what they were before the call, and so is every other Region. *)
Theorem region_alloc_failure_atomic h p r size alignment h' :
  valid_request size alignment = true ->
  h !! p = Some r ->
  region_alloc h p size alignment = Ok (None, h') ->
  h' = h /\
  exists r', h' !! p = Some r' /\ tail r' = tail r /\
    capacity r' = capacity r /\ next r' = next r /\ data r' = data r.
Proof.
  intros Hv Hp. rewrite (region_alloc_unfold _ _ r) by assumption.
  cbv zeta. intros H.
  assert (h' = h) as ->.
  { destruct (_ >=? _); [congruence |].
    destruct (_ >? _); [congruence | discriminate]. }
  split; [reflexivity |]. exists r. auto.
Qed.

(** ** Pages and the kernel *)

Hypothesis page_shift_range : 6 <= page_shift < 64.

Lemma page_size_bounds : 64 <= page_size <= 2 ^ 63.
Proof.
  unfold page_size. split.
  - change 64 with (2 ^ 6). apply Z.pow_le_mono_r; lia.
  - apply Z.pow_le_mono_r; lia.
Qed.

(** [align_to_page] yields a multiple of the page size that a [size_t]
    holds; when the sum inside [align] does not wrap it is the least such
    multiple at or above its argument. *)
Lemma align_to_page_spec n :
  in_size_t n ->
  exists q, 0 <= q /\ align_to_page n = q * page_size /\
    q * page_size <= SIZE_MAX /\
    (n + (page_size - 1) <= SIZE_MAX ->
     n <= q * page_size < n + page_size).
Proof.
  intros Hn. unfold align_to_page, page_size.
  rewrite align_pow2 by lia.
  pose proof page_size_bounds as Hp. unfold page_size in Hp.
  set (P := 2 ^ page_shift) in *.
  pose proof (size_t_range (n + (P - 1))) as Hx.
  set (x := size_t (n + (P - 1))) in *.
  pose proof (Z.div_mod x P ltac:(lia)) as Hd.
  pose proof (Z.mod_pos_bound x P ltac:(lia)) as Hm.
  exists (x / P). rewrite (Z.mul_comm (x / P) P).
  assert (0 <= x / P) by (apply Z.div_pos; lia).
  split; [assumption |]. split; [reflexivity |]. split; [lia |].
  intros Hs.
  assert (x = n + (P - 1)) as Hxe
    by (subst x; apply size_t_id; unfold in_size_t in *; lia).
  lia.
Qed.

Lemma mmap_Some os pick len p :
  mmap os pick len = Some p ->
  pick = Some p /\ 0 < len /\ 0 < p /\ p mod page_size = 0 /\
  p + len <= 2 ^ SIZE_BITS /\
  forall b, b ∈ os -> overlap (p, len) b = false.
Proof.
  unfold mmap. destruct pick as [p' |]; [| discriminate].
  destruct (_ && _) eqn:E; [| discriminate]. intros [= ->].
  repeat (apply andb_true_iff in E as [E ?]).
  repeat split; try lia.
  intros b Hb. rewrite forallb_forall in H.
  apply negb_true_iff, H, list_elem_of_In, Hb.
Qed.

Lemma alloc_mem_Ok os pick len p os' :
  alloc_mem os pick len = Ok (p, os') ->
  mmap os pick len = Some p /\ os' = (p, len) :: os.
Proof.
  unfold alloc_mem. destruct (mmap os pick len); [| discriminate].
  intros [= -> <-]. auto.
Qed.

(** The kernel places blocks on page boundaries, which are multiples of
    [alignof(max_align_t)]. *)
Lemma granted_max_aligned os pick len p :
  mmap os pick len = Some p -> p mod MAX_ALIGN = 0.
Proof.
  intros Hm. apply mmap_Some in Hm as (_ & _ & _ & Hp & _).
  pose proof page_size_bounds as Hps. unfold MAX_ALIGN.
  apply Z.mod_divide in Hp; [| lia]. apply Z.mod_divide; [lia |].
  apply Z.divide_trans with page_size; [| exact Hp].
  unfold page_size. exists (2 ^ (page_shift - 4)).
  change 16 with (2 ^ 4). rewrite <- Z.pow_add_r by lia. f_equal. lia.
Qed.

(** A block the kernel granted is at least one page long when its length
    came out of [align_to_page]. *)
Lemma granted_page_multiple os pick n p :
  in_size_t n ->
  mmap os pick (align_to_page n) = Some p ->
  page_size <= align_to_page n <= SIZE_MAX /\
  exists q, align_to_page n = q * page_size.
Proof.
  intros Hn Hm. apply mmap_Some in Hm as (_ & Hlen & _).
  destruct (align_to_page_spec n Hn) as (q & Hq & Heq & Hmax & _).
  pose proof page_size_bounds. rewrite Heq in *.
  split; [| eauto]. split; [| lia].
  assert (1 <= q) by (destruct (Z.eq_dec q 0); [subst q |]; lia).
  replace page_size with (1 * page_size) at 1 by lia.
  apply Z.mul_le_mono_nonneg_r; lia.
Qed.

(** ** Creation *)

Lemma create_region_Ok os h pick cap p os' h' :
  create_region os h pick cap = Ok (p, os', h') ->
  exists mem_size,
    mem_size = align_to_page (size_t (cap + REGION_HEADER_SIZE)) /\
    mmap os pick mem_size = Some p /\
    page_size <= mem_size <= SIZE_MAX /\
    (exists q, mem_size = q * page_size) /\
    os' = (p, mem_size) :: os /\
    h' = <[p := {| next := None; tail := 0;
                   capacity := mem_size - REGION_HEADER_SIZE;
                   data := ∅ |}]> h.
Proof.
  unfold create_region. cbv zeta.
  set (mem_size := align_to_page _).
  destruct (alloc_mem os pick mem_size) as [[p0 os0] | e] eqn:E;
    [| discriminate].
  cbn. intros [= -> -> <-].
  apply alloc_mem_Ok in E as [Hm ->].
  pose proof (granted_page_multiple os pick _ p
                (size_t_range (cap + REGION_HEADER_SIZE)) Hm) as [Hb Hq].
  fold mem_size in Hb, Hq. pose proof page_size_bounds.
  exists mem_size. repeat split; try assumption; try lia.
  rewrite size_t_id; [reflexivity |].
  unfold in_size_t, REGION_HEADER_SIZE. lia.
Qed.

Lemma create_arena_Ok os pick cap s :
  create_arena os pick cap = Ok s ->
  exists mem_size,
    mem_size = align_to_page (size_t (cap + ARENA_HEADER_SIZE)) /\
    mmap os pick mem_size = Some (arena s) /\
    page_size <= mem_size <= SIZE_MAX /\
    (exists q, mem_size = q * page_size) /\
    mappings s = (arena s, mem_size) :: os /\
    last s = first s /\
    new_region_capacity s = cap /\
    regions s = {[ first s := {| next := None; tail := 0;
                                 capacity := mem_size - ARENA_HEADER_SIZE;
                                 data := ∅ |} ]}.
Proof.
  unfold create_arena. cbv zeta.
  set (mem_size := align_to_page _).
  destruct (alloc_mem os pick mem_size) as [[p0 os0] | e] eqn:E;
    [| discriminate].
  cbn. intros [= <-]. cbn.
  apply alloc_mem_Ok in E as [Hm ->].
  pose proof (granted_page_multiple os pick _ p0
                (size_t_range (cap + ARENA_HEADER_SIZE)) Hm) as [Hb Hq].
  fold mem_size in Hb, Hq. pose proof page_size_bounds.
  exists mem_size. repeat split; try assumption; try lia.
  unfold first. cbn. rewrite size_t_id; [reflexivity |].
  unfold in_size_t, ARENA_HEADER_SIZE, ARENA_FIRST_OFFSET, REGION_HEADER_SIZE.
  lia.
Qed.

(** ** Chains *)

Lemma is_chain_head h p l : is_chain h p l -> exists l', l = p :: l'.
Proof. destruct 1; eauto. Qed.

Lemma is_chain_lookup h p l q :
  is_chain h p l -> q ∈ l -> is_Some (h !! q).
Proof.
  induction 1 as [p r Hp Hn | p r q' l Hp Hn Hc IH]; intros Hq.
  - apply list_elem_of_singleton in Hq as ->. eauto.
  - apply elem_of_cons in Hq as [-> | Hq]; eauto.
Qed.

(** Rewriting a Region without touching its [next] keeps every chain. *)
Lemma is_chain_update h x l p r r' :
  h !! p = Some r -> next r' = next r ->
  is_chain h x l -> is_chain (<[p := r']> h) x l.
Proof.
  intros Hp Hn. induction 1 as [y ry Hy Hny | y ry q l Hy Hny Hc IH].
  - destruct (decide (p = y)) as [-> | Hne].
    + eapply chain_end; [apply lookup_insert_eq | congruence].
    + eapply chain_end; [rewrite lookup_insert_ne by done; eauto | done].
  - destruct (decide (p = y)) as [-> | Hne].
    + apply (chain_link _ y r' q l);
        [apply lookup_insert_eq | congruence | exact IH].
    + apply (chain_link _ y ry q l);
        [rewrite lookup_insert_ne by done; exact Hy | exact Hny | exact IH].
Qed.

(** Linking a fresh Region after the final one extends the chain by it. *)
Lemma is_chain_snoc h x l lst rl new fresh :
  is_chain h x l -> NoDup l -> list.last l = Some lst ->
  h !! lst = Some rl -> h !! new = None -> next fresh = None ->
  is_chain (<[lst := set_next rl (Some new)]> (<[new := fresh]> h))
           x (l ++ [new]).
Proof.
  intros Hc. revert lst rl.
  induction Hc as [y ry Hy Hny | y ry q l Hy Hny Hc IH];
    intros lst rl Hnd Hl Hlst Hnew Hf.
  - cbn in Hl. injection Hl as <-. cbn.
    assert (new <> y) by congruence.
    eapply chain_link; [apply lookup_insert_eq | reflexivity |].
    eapply chain_end; [| exact Hf].
    rewrite lookup_insert_ne by done. apply lookup_insert_eq.
  - destruct (is_chain_head _ _ _ Hc) as [l' ->].
    rewrite last_cons_cons in Hl.
    apply NoDup_cons in Hnd as [Hni Hnd].
    assert (lst ∈ q :: l') as Hin by (apply last_Some_elem_of, Hl).
    assert (lst <> y) by (intros ->; contradiction).
    assert (new <> y) by congruence.
    cbn. eapply chain_link.
    + rewrite !lookup_insert_ne by done. exact Hy.
    + exact Hny.
    + apply (IH lst rl); assumption.
Qed.

Lemma chain_length_le (h : gmap Z Region) x l :
  is_chain h x l -> NoDup l -> (length l <= base.size h)%nat.
Proof.
  intros Hc Hnd.
  rewrite <- (size_list_to_set (C := gset Z) l Hnd), <- size_dom.
  apply subseteq_size. intros q Hq.
  apply elem_of_list_to_set in Hq. apply elem_of_dom.
  eapply is_chain_lookup; eauto.
Qed.

(** ** The invariant is established and kept *)

Lemma overlap_false p len b :
  overlap (p, len) b = false -> p + len <= b.1 \/ b.1 + b.2 <= p.
Proof.
  unfold overlap. cbn. intros H.
  apply andb_false_iff in H as [H | H]; lia.
Qed.

Lemma arena_ok_create os pick cap s :
  create_arena os pick cap = Ok s -> arena_ok s.
Proof.
  intros Hc.
  destruct (create_arena_Ok _ _ _ _ Hc)
    as (mem & _ & Hmm & Hb & _ & Hmap & Hlast & _ & Hreg).
  pose proof page_size_bounds as Hps.
  pose proof (granted_max_aligned _ _ _ _ Hmm) as Hal.
  assert (forall p r, regions s !! p = Some r ->
            p = first s /\ tail r = 0 /\ capacity r = mem - ARENA_HEADER_SIZE)
    as Hone.
  { intros p r. rewrite Hreg. intros H.
    apply lookup_singleton_Some in H as [<- <-]. auto. }
  unfold ARENA_HEADER_SIZE, ARENA_FIRST_OFFSET, REGION_HEADER_SIZE in *.
  constructor.
  - exists [first s]. split; [| split].
    + eapply chain_end; [rewrite Hreg; apply lookup_singleton_eq | reflexivity].
    + apply NoDup_singleton.
    + cbn. now rewrite Hlast.
  - intros p r H. destruct (Hone _ _ H) as (_ & Ht & Hcap).
    unfold region_ok. size_lia.
  - intros p r H. destruct (Hone _ _ H) as (-> & Ht & Hcap).
    exists (arena s, mem). rewrite Hmap. split; [apply list_elem_of_here |].
    unfold region_end, data_addr, first, ARENA_FIRST_OFFSET,
      REGION_HEADER_SIZE. cbn. lia.
  - intros p q r r' Hne H1 H2.
    destruct (Hone _ _ H1) as (-> & _). destruct (Hone _ _ H2) as (-> & _).
    contradiction.
  - intros p r H. destruct (Hone _ _ H) as (-> & _).
    unfold first, ARENA_FIRST_OFFSET, MAX_ALIGN in *.
    rewrite <- Z.add_mod_idemp_l, Hal by lia. reflexivity.
Qed.

Lemma arena_ok_set s cap :
  arena_ok s -> arena_ok (set_region_capacity s cap).
Proof. intros [H1 H2 H3 H4 H5]. constructor; assumption. Qed.

(** Advancing one Region's cursor inside its payload. *)
Lemma arena_ok_bump s p r t :
  arena_ok s -> regions s !! p = Some r -> tail r <= t <= capacity r ->
  arena_ok (set_regions s (<[p := set_tail r t]> (regions s))).
Proof.
  intros [Hch Hreg Hmap Hap Hpl] Hp Ht.
  assert (forall q x, <[p := set_tail r t]> (regions s) !! q = Some x ->
            exists x0, regions s !! q = Some x0 /\
              capacity x = capacity x0 /\ tail x0 <= tail x <= capacity x)
    as Hold.
  { intros q x. destruct (decide (p = q)) as [<- | Hne].
    - rewrite lookup_insert_eq. intros [= <-]. exists r. cbn.
      pose proof (Hreg _ _ Hp) as [? ?]. auto with lia.
    - rewrite lookup_insert_ne by done. intros H. exists x.
      pose proof (Hreg _ _ H) as [? ?]. auto with lia. }
  constructor; cbn.
  - destruct Hch as (l & Hc & Hnd & Hl). exists l.
    split; [| auto]. eapply is_chain_update; eauto.
  - intros q x H. destruct (Hold _ _ H) as (x0 & H0 & Hc & Htl).
    destruct (Hreg _ _ H0) as [? ?]. unfold region_ok. lia.
  - intros q x H. destruct (Hold _ _ H) as (x0 & H0 & Hc & _).
    destruct (Hmap _ _ H0) as (b & Hb & ? & ?). exists b.
    unfold region_end in *. rewrite Hc. auto.
  - intros q q' x x' Hne H H'.
    destruct (Hold _ _ H) as (x0 & H0 & Hc & _).
    destruct (Hold _ _ H') as (x0' & H0' & Hc' & _).
    unfold region_end in *. rewrite Hc, Hc'. eapply Hap; eauto.
  - intros q x H. destruct (Hold _ _ H) as (x0 & H0 & _). eauto.
Qed.

(** No Region struct sits where the kernel places a new block. *)
Lemma granted_block_fresh s pick len p :
  arena_ok s -> mmap (mappings s) pick len = Some p ->
  regions s !! p = None.
Proof.
  intros [_ Hreg Hmap _ _] Hm.
  apply mmap_Some in Hm as (_ & Hlen & _ & _ & _ & Hno).
  destruct (regions s !! p) as [r |] eqn:E; [| reflexivity].
  destruct (Hmap _ _ E) as (b & Hb & Hlo & Hhi).
  destruct (Hreg _ _ E) as [? ?].
  apply Hno, overlap_false in Hb.
  unfold region_end, data_addr, REGION_HEADER_SIZE in *. lia.
Qed.

Lemma last_in_heap s :
  arena_ok s -> exists l, regions s !! last s = Some l /\ next l = None.
Proof.
  intros [(l & Hc & _ & Hl) _ _ _ _]. clear -Hc Hl.
  induction Hc as [y ry Hy Hny | y ry q l Hy Hny Hc IH].
  - cbn in Hl. injection Hl as <-. eauto.
  - destruct (is_chain_head _ _ _ Hc) as [l' ->].
    rewrite last_cons_cons in Hl. auto.
Qed.

Lemma arena_ok_grow s pick cap new os' h1 :
  arena_ok s ->
  create_region (mappings s) (regions s) pick cap = Ok (new, os', h1) ->
  exists l mem,
    regions s !! last s = Some l /\ h1 !! last s = Some l /\
    regions s !! new = None /\ new <> last s /\
    page_size <= mem <= SIZE_MAX /\
    mem = align_to_page (size_t (cap + REGION_HEADER_SIZE)) /\
    os' = (new, mem) :: mappings s /\
    h1 = <[new := {| next := None; tail := 0;
                     capacity := mem - REGION_HEADER_SIZE; data := ∅ |}]>
           (regions s) /\
    arena_ok (grown s os' new l h1).
Proof.
  intros Hok Hcr.
  destruct (create_region_Ok _ _ _ _ _ _ _ Hcr)
    as (mem & Hmem & Hm & Hb & _ & -> & ->).
  pose proof (granted_block_fresh _ _ _ _ Hok Hm) as Hfresh.
  destruct (last_in_heap _ Hok) as (l & Hl & Hnl).
  assert (new <> last s) as Hne by congruence.
  exists l, mem.
  split; [exact Hl |].
  split; [rewrite lookup_insert_ne by done; exact Hl |].
  do 2 (split; [assumption |]).
  split; [exact Hb |]. split; [exact Hmem |].
  do 2 (split; [reflexivity |]).
  pose proof page_size_bounds as Hps.
  pose proof (granted_max_aligned _ _ _ _ Hm) as Hal.
  apply mmap_Some in Hm as (_ & Hlen & _ & _ & _ & Hno).
  destruct Hok as [Hch Hreg Hmap Hap Hpl].
  set (fresh := {| next := None; tail := 0;
                   capacity := mem - REGION_HEADER_SIZE; data := ∅ |}).
  assert (forall q x,
            <[last s := set_next l (Some new)]>
              (<[new := fresh]> (regions s)) !! q = Some x ->
            (q = new /\ x = fresh) \/
            (q <> new /\ exists x0, regions s !! q = Some x0 /\
               capacity x = capacity x0 /\ tail x = tail x0)) as Hcases.
  { intros q x. destruct (decide (last s = q)) as [<- | Hq].
    - rewrite lookup_insert_eq. intros [= <-]. right. split; [done |].
      exists l. auto.
    - rewrite lookup_insert_ne by done.
      destruct (decide (new = q)) as [<- | Hq'].
      + rewrite lookup_insert_eq. intros [= <-]. auto.
      + rewrite lookup_insert_ne by done. intros H. right.
        split; [done |]. exists x. auto. }
  assert (forall q x0, regions s !! q = Some x0 ->
            region_end new fresh <= q \/ region_end q x0 <= new) as Hsep.
  { intros q x0 H0. destruct (Hmap _ _ H0) as (b & Hb' & Hlo & Hhi).
    destruct (Hreg _ _ H0) as [? ?].
    apply Hno, overlap_false in Hb'.
    unfold region_end, data_addr, fresh, REGION_HEADER_SIZE in *. cbn in *.
    lia. }
  constructor; cbn.
  - destruct Hch as (ch & Hc & Hnd & Hlast). exists (ch ++ [new]).
    split; [| split].
    + eapply is_chain_snoc; eauto.
    + apply NoDup_app. split; [assumption |]. split; [| apply NoDup_singleton].
      intros q Hq Hq'. apply list_elem_of_singleton in Hq' as ->.
      destruct (is_chain_lookup _ _ _ _ Hc Hq) as [? ?]. congruence.
    + apply last_snoc.
  - intros q x H.
    destruct (Hcases _ _ H) as [[-> ->] | (_ & x0 & H0 & Hc & Ht)].
    + unfold region_ok, fresh. cbn. size_lia.
    + destruct (Hreg _ _ H0) as [? ?]. unfold region_ok. lia.
  - intros q x H.
    destruct (Hcases _ _ H) as [[-> ->] | (_ & x0 & H0 & Hc & Ht)].
    + exists (new, mem). split; [apply list_elem_of_here |].
      unfold region_end, data_addr, fresh, REGION_HEADER_SIZE. cbn. lia.
    + destruct (Hmap _ _ H0) as (b & Hb' & ? & ?). exists b.
      split; [apply list_elem_of_further, Hb' |].
      unfold region_end in *. rewrite Hc. auto.
  - intros q q' x x' Hqq H H'.
    destruct (Hcases _ _ H) as [[-> ->] | (_ & x0 & H0 & Hc & _)];
      destruct (Hcases _ _ H') as [[-> ->] | (_ & x0' & H0' & Hc' & _)].
    + contradiction.
    + destruct (Hsep _ _ H0'); unfold region_end in *; rewrite ?Hc'; auto.
    + destruct (Hsep _ _ H0); unfold region_end in *; rewrite ?Hc; auto.
    + unfold region_end in *. rewrite Hc, Hc'. eapply Hap; eauto.
  - intros q x H.
    destruct (Hcases _ _ H) as [[-> ->] | (_ & x0 & H0 & _)]; eauto.
Qed.

(** ** The loop of [_arena_fit] *)

Lemma fit_loop_null fuel h size alignment :
  fit_loop fuel h None size alignment = Ok (None, h).
Proof. destruct fuel; reflexivity. Qed.

(** No Region of the chain has room: the loop runs to the end of the
    chain and leaves memory as it was. *)
Lemma fit_loop_roomless h x l size alignment :
  is_chain h x l ->
  (forall p r, h !! p = Some r -> region_ok r) ->
  valid_request size alignment = true ->
  Forall (roomless h size alignment) l ->
  forall fuel, (length l <= fuel)%nat ->
  fit_loop fuel h (Some x) size alignment = Ok (None, h).
Proof.
  intros Hc Hreg Hv.
  induction Hc as [y ry Hy Hny | y ry q l Hy Hny Hc IH];
    intros Hall fuel Hfuel;
    (destruct fuel as [| fuel]; [cbn in Hfuel; lia |]);
    apply Forall_cons in Hall as [Hy' Hall];
    cbn [fit_loop];
    rewrite (region_alloc_spec h y ry) by eauto;
    rewrite (Hy' _ Hy); cbn; rewrite Hy, Hny.
  - apply fit_loop_null.
  - apply IH; [assumption | cbn in Hfuel; lia].
Qed.

(** The loop stops at the first Region of the chain that has room. *)
Lemma fit_loop_first_fit h size alignment l1 :
  (forall p r, h !! p = Some r -> region_ok r) ->
  valid_request size alignment = true ->
  forall x l p r l2 fuel,
  is_chain h x l -> l = l1 ++ p :: l2 ->
  Forall (roomless h size alignment) l1 ->
  h !! p = Some r -> has_room r size alignment = true ->
  (length l1 < fuel)%nat ->
  fit_loop fuel h (Some x) size alignment =
    Ok (Some (data_addr p + round_up (tail r) alignment),
        <[p := set_tail r (round_up (tail r) alignment + size)]> h).
Proof.
  intros Hreg Hv.
  induction l1 as [| y l1 IH]; intros x l p r l2 fuel Hc Hl Hall Hp Hroom Hfuel;
    (destruct fuel as [| fuel]; [cbn in Hfuel; lia |]).
  - cbn in Hl. destruct (is_chain_head _ _ _ Hc) as [l' Hl'].
    assert (x = p) as -> by congruence.
    cbn [fit_loop]. rewrite (region_alloc_spec h p r) by eauto.
    rewrite Hroom. reflexivity.
  - cbn in Hl. subst l. apply Forall_cons in Hall as [Hy Hall].
    inversion Hc as [z rz Hz Hnz Hx Heq | z rz q l' Hz Hnz Hc' Hx Heq].
    + destruct l1; discriminate.
    + subst. cbn [fit_loop]. rewrite (region_alloc_spec h y rz) by eauto.
      rewrite (Hy _ Hz). cbn. rewrite Hz, Hnz.
      eapply IH; eauto. cbn in Hfuel. lia.
Qed.

(** A chain either has no Region with room or splits at the first one
    that has. *)
Lemma first_fit_split h size alignment l :
  (forall p, p ∈ l -> is_Some (h !! p)) ->
  Forall (roomless h size alignment) l \/
  exists l1 p r l2, l = l1 ++ p :: l2 /\
    Forall (roomless h size alignment) l1 /\
    h !! p = Some r /\ has_room r size alignment = true.
Proof.
  induction l as [| y l IH]; intros Hin; [left; constructor |].
  destruct (Hin y ltac:(apply list_elem_of_here)) as [ry Hy].
  destruct (has_room ry size alignment) eqn:E.
  - right. exists [], y, ry, l. repeat split; auto.
  - assert (roomless h size alignment y) as Hry
      by (intros r' Hr'; congruence).
    destruct IH as [Hall | (l1 & p & r & l2 & -> & Hall & Hp & Hroom)].
    + intros p Hp. apply Hin, list_elem_of_further, Hp.
    + left. constructor; assumption.
    + right. exists (y :: l1), p, r, l2. repeat split; auto.
Qed.

(** *** The iteration bound is exact *)

Lemma region_alloc_None h p size alignment h' :
  region_alloc h p size alignment = Ok (None, h') ->
  h' = h /\ is_Some (h !! p).
Proof.
  unfold region_alloc.
  destruct (negb _); [discriminate |]. destruct (negb _); [discriminate |].
  destruct (h !! p) as [r |]; [| discriminate]. cbv zeta.
  destruct (_ >=? _); [intros [= <-]; eauto |].
  destruct (_ >? _); [intros [= <-]; eauto | discriminate].
Qed.

Lemma region_alloc_not_Loops h p size alignment :
  region_alloc h p size alignment <> Stop Loops.
Proof.
  unfold region_alloc.
  destruct (negb _); [discriminate |]. destruct (negb _); [discriminate |].
  destruct (h !! p) as [r |]; [| discriminate]. cbv zeta.
  destruct (_ >=? _); [discriminate |].
  destruct (_ >? _); discriminate.
Qed.

Lemma fit_loop_hop fuel h size alignment p q :
  hop h size alignment p q ->
  fit_loop (S fuel) h (Some p) size alignment =
  fit_loop fuel h (Some q) size alignment.
Proof.
  intros (r & Hp & Hfail & Hn). cbn [fit_loop].
  rewrite Hfail. cbn. now rewrite Hp, Hn.
Qed.

(** A loop that is still going after [fuel] iterations has failed at
    [fuel] Regions. *)
Lemma loops_walk h size alignment fuel :
  forall x, fit_loop fuel h (Some x) size alignment = Stop Loops ->
  exists l y, length l = fuel /\ walk h size alignment x l y.
Proof.
  induction fuel as [| fuel IH]; intros x Hl.
  - exists [], x. split; [reflexivity | constructor].
  - cbn [fit_loop] in Hl.
    destruct (region_alloc h x size alignment) as [[[q |] h'] | e] eqn:E;
      cbn in Hl; [discriminate | |].
    + destruct (region_alloc_None _ _ _ _ _ E) as [-> _].
      destruct (h !! x) as [r |] eqn:Hx; [| discriminate].
      destruct (next r) as [q |] eqn:Hn;
        [| rewrite fit_loop_null in Hl; discriminate].
      destruct (IH q Hl) as (l & y & Hlen & Hw).
      exists (x :: l), y. split; [cbn; congruence |].
      eapply walk_hop; [| exact Hw]. exists r. auto.
    + injection Hl as ->. now apply region_alloc_not_Loops in E.
Qed.

Lemma walk_app_inv h size alignment l1 :
  forall x l2 y, walk h size alignment x (l1 ++ l2) y ->
  exists m, walk h size alignment x l1 m /\ walk h size alignment m l2 y.
Proof.
  induction l1 as [| a l1 IH]; intros x l2 y Hw; cbn in Hw.
  - exists x. split; [constructor | exact Hw].
  - inversion Hw as [| x' q l' y' Hh Hw']; subst.
    destruct (IH _ _ _ Hw') as (m & H1 & H2).
    exists m. split; [eapply walk_hop; eauto | exact H2].
Qed.

Lemma walk_head h size alignment x a l y :
  walk h size alignment x (a :: l) y -> x = a.
Proof. inversion 1; reflexivity. Qed.

Lemma walk_elem_of_dom h size alignment x l y p :
  walk h size alignment x l y -> p ∈ l -> p ∈ dom h.
Proof.
  induction 1 as [| x q l y (r & Hx & _) Hw IH]; intros Hp.
  - apply elem_of_nil in Hp as [].
  - apply elem_of_cons in Hp as [-> | Hp]; [| auto].
    apply elem_of_dom. eauto.
Qed.

(** Along a walk every Region hops to the next one, the final one to the
    end of the walk. *)
Lemma walk_closed h size alignment x l y p :
  walk h size alignment x l y -> p ∈ l ->
  exists q, hop h size alignment p q /\ (q ∈ l \/ q = y).
Proof.
  induction 1 as [| x q l y Hh Hw IH]; intros Hp.
  - apply elem_of_nil in Hp as [].
  - apply elem_of_cons in Hp as [-> | Hp].
    + exists q. split; [exact Hh |].
      inversion Hw; subst; [auto |].
      left. apply list_elem_of_further, list_elem_of_here.
    + destruct (IH Hp) as (q' & Hq' & Hin). exists q'.
      split; [exact Hq' |].
      destruct Hin as [Hin | ->]; [left; now apply list_elem_of_further | auto].
Qed.

Lemma repeated_element (l : list Z) :
  ~ NoDup l -> exists l1 p l2 l3, l = l1 ++ p :: l2 ++ p :: l3.
Proof.
  induction l as [| a l IH]; intros Hnd; [destruct Hnd; constructor |].
  destruct (decide (a ∈ l)) as [Hin | Hnin].
  - apply list_elem_of_split in Hin as (l2 & l3 & ->).
    exists [], a, l2, l3. reflexivity.
  - destruct IH as (l1 & p & l2 & l3 & ->).
    + intros H. apply Hnd. now constructor.
    + exists (a :: l1), p, l2, l3. reflexivity.
Qed.

(** Iterations that fail all the way round a cycle never end. *)
Lemma cycle_loops h size alignment p l :
  walk h size alignment p (p :: l) p ->
  forall fuel q, q ∈ p :: l ->
  fit_loop fuel h (Some q) size alignment = Stop Loops.
Proof.
  intros Hw. induction fuel as [| fuel IH]; intros q Hq; [reflexivity |].
  destruct (walk_closed _ _ _ _ _ _ _ Hw Hq) as (q' & Hh & Hq').
  rewrite (fit_loop_hop _ _ _ _ _ _ Hh). apply IH.
  destruct Hq' as [? | ->]; [assumption | apply list_elem_of_here].
Qed.

Lemma walk_into_loop h size alignment x l y :
  walk h size alignment x l y ->
  (forall fuel, fit_loop fuel h (Some y) size alignment = Stop Loops) ->
  forall fuel, fit_loop fuel h (Some x) size alignment = Stop Loops.
Proof.
  induction 1 as [| x q l y Hh Hw IH]; intros Hy fuel; [apply Hy |].
  destruct fuel as [| fuel]; [reflexivity |].
  rewrite (fit_loop_hop _ _ _ _ _ _ Hh). now apply IH.
Qed.

(** The bound [_arena_fit] runs its loop with is exact: a loop that is
    still going after one iteration more than there are Region structs
    goes on whatever number of iterations it is given. *)
Lemma fit_loop_fuel_exact (h : gmap Z Region) size alignment x :
  fit_loop (S (base.size h)) h (Some x) size alignment = Stop Loops ->
  forall fuel, fit_loop fuel h (Some x) size alignment = Stop Loops.
Proof.
  intros Hl. destruct (loops_walk _ _ _ _ _ Hl) as (l & y & Hlen & Hw).
  assert (~ NoDup l) as Hnd.
  { intros Hnd.
    assert (length l <= base.size h)%nat; [| lia].
    rewrite <- (size_list_to_set (C := gset Z) l Hnd), <- size_dom.
    apply subseteq_size. intros q Hq. apply elem_of_list_to_set in Hq.
    eapply walk_elem_of_dom; eauto. }
  destruct (repeated_element l Hnd) as (l1 & p & l2 & l3 & ->).
  destruct (walk_app_inv _ _ _ _ _ _ _ Hw) as (m & Hw1 & Hw2).
  pose proof (walk_head _ _ _ _ _ _ _ Hw2) as ->.
  change (p :: l2 ++ p :: l3) with ((p :: l2) ++ p :: l3) in Hw2.
  destruct (walk_app_inv _ _ _ _ _ _ _ Hw2) as (m & Hcyc & Hw3).
  pose proof (walk_head _ _ _ _ _ _ _ Hw3) as ->.
  eapply walk_into_loop; [exact Hw1 |].
  intros fuel. eapply cycle_loops; [exact Hcyc | apply list_elem_of_here].
Qed.

(** ** Effects of the two primitive steps on the invariant *)

Lemma set_regions_id s : set_regions s (regions s) = s.
Proof. destruct s. reflexivity. Qed.

Lemma has_room_bounds r size alignment :
  valid_request size alignment = true ->
  has_room r size alignment = true ->
  tail r <= round_up (tail r) alignment /\
  tail r <= round_up (tail r) alignment + size <= capacity r /\ 0 < size.
Proof.
  intros Hv Hroom. unfold has_room in Hroom.
  destruct (round_up_tail r size alignment Hv) as [? _].
  destruct (valid_request_inv _ _ Hv) as [? _]. lia.
Qed.

(** A Region with room serves the request: the invariant survives and the
    new block is disjoint from every block handed out before. *)
Lemma sound_bump s log p r size alignment :
  sound s log -> regions s !! p = Some r ->
  valid_request size alignment = true ->
  has_room r size alignment = true ->
  sound (bump s p r size alignment)
        (mkAllocation (data_addr p + round_up (tail r) alignment)
                      size alignment :: log).
Proof.
  intros (Hok & Hlog & Hdis) Hp Hv Hroom.
  destruct (has_room_bounds _ _ _ Hv Hroom) as (Hs & Ht & Hsz).
  destruct (ok_regions _ Hok _ _ Hp) as [Hr0 _].
  split; [| split].
  - apply arena_ok_bump; [assumption | assumption | lia].
  - intros a Ha. apply elem_of_cons in Ha as [-> | Ha]; cbn.
    + split; [assumption |]. eexists p, _.
      split; [apply lookup_insert_eq |]. cbn.
      do 2 (split; [lia |]).
      replace (data_addr p + round_up (tail r) alignment - data_addr p)
        with (round_up (tail r) alignment) by lia.
      apply (round_up_tail r size alignment Hv).
    + destruct (Hlog a Ha) as (Hpos & q & x & Hq & Hlo & Hhi & Hmod).
      split; [assumption |].
      destruct (decide (p = q)) as [<- | Hne].
      * eexists p, _. split; [apply lookup_insert_eq |]. cbn.
        assert (x = r) as -> by congruence. auto with lia.
      * exists q, x. rewrite lookup_insert_ne by done. auto.
  - cbn. split; [| assumption].
    apply Forall_forall. intros a Ha.
    destruct (Hlog a Ha) as (Hpos & q & x & Hq & Hlo & Hhi & _).
    apply valid_request_inv in Hpos as [Hpos _].
    unfold disjoint. cbn.
    destruct (decide (p = q)) as [<- | Hne].
    + assert (x = r) as -> by congruence. lia.
    + destruct Hok as [_ Hreg _ Hap _].
      destruct (Hreg _ _ Hq) as [? ?].
      destruct (Hap _ _ _ _ Hne Hp Hq);
        unfold region_end, data_addr, REGION_HEADER_SIZE in *; lia.
Qed.

(** Growth keeps the invariant and every logged block. *)
Lemma sound_grow s log pick cap new os' h1 l :
  sound s log ->
  create_region (mappings s) (regions s) pick cap = Ok (new, os', h1) ->
  regions s !! last s = Some l ->
  sound (grown s os' new l h1) log.
Proof.
  intros (Hok & Hlog & Hdis) Hcr Hl.
  destruct (arena_ok_grow _ _ _ _ _ _ Hok Hcr)
    as (l' & mem & Hl' & _ & Hfresh & Hne & _ & _ & _ & -> & Hg).
  assert (l' = l) as -> by congruence.
  split; [assumption |]. split; [| assumption].
  intros a Ha. destruct (Hlog a Ha) as (Hpos & q & x & Hq & Hlo & Hhi).
  split; [assumption |]. cbn.
  destruct (decide (last s = q)) as [<- | Hq'].
  - exists (last s), (set_next l (Some new)).
    rewrite lookup_insert_eq. assert (x = l) as -> by congruence. auto.
  - exists q, x. rewrite lookup_insert_ne by done.
    rewrite lookup_insert_ne by congruence. auto.
Qed.

Lemma sound_create os pick cap s :
  create_arena os pick cap = Ok s -> sound s [].
Proof.
  intros Hc. split; [eapply arena_ok_create; eauto |].
  split; [| exact I]. intros a Ha. apply elem_of_nil in Ha as [].
Qed.

Lemma sound_set s log cap :
  sound s log -> sound (set_region_capacity s cap) log.
Proof.
  intros (Hok & Hlog & Hdis). split; [apply arena_ok_set, Hok |]. auto.
Qed.

(** ** The allocation entry points, as equations *)

Lemma round_up_zero a : 0 < a -> round_up 0 a = 0.
Proof.
  intros Ha. unfold round_up. rewrite Z.div_small by lia. lia.
Qed.

Lemma is_chain_unique h x l l' :
  is_chain h x l -> is_chain h x l' -> l = l'.
Proof.
  intros Hc. revert l'.
  induction Hc as [y ry Hy Hny | y ry q l Hy Hny Hc IH]; intros l' Hc';
    inversion Hc' as [z rz Hz Hnz | z rz q' l'' Hz Hnz Hc'']; subst;
    try congruence.
  f_equal. apply IH. congruence.
Qed.

Lemma new_region_alloc_stop s pick size alignment e :
  create_region (mappings s) (regions s) pick
                (max size (new_region_capacity s)) = Stop e ->
  new_region_alloc s pick size alignment = Stop e.
Proof. unfold new_region_alloc. now intros ->. Qed.

(** Once the kernel has granted the block, [new_region_alloc] links the
    new Region after [last], makes it [last], and serves the request from
    it when the payload is large enough. *)
Lemma new_region_alloc_eq s pick size alignment new os' h1 :
  arena_ok s -> valid_request size alignment = true ->
  create_region (mappings s) (regions s) pick
                (max size (new_region_capacity s)) = Ok (new, os', h1) ->
  exists l mem,
    regions s !! last s = Some l /\
    mem = align_to_page
            (size_t (max size (new_region_capacity s) + REGION_HEADER_SIZE)) /\
    page_size <= mem <= SIZE_MAX /\
    os' = (new, mem) :: mappings s /\
    regions s !! new = None /\
    let fresh := {| next := None; tail := 0;
                    capacity := mem - REGION_HEADER_SIZE; data := ∅ |} in
    let g := grown s os' new l h1 in
    regions g !! new = Some fresh /\
    new_region_alloc s pick size alignment =
      if has_room fresh size alignment
      then Ok (Some (data_addr new), bump g new fresh size alignment)
      else Ok (None, g).
Proof.
  intros Hok Hv Hcr.
  destruct (arena_ok_grow _ _ _ _ _ _ Hok Hcr)
    as (l & mem & Hl & Hl1 & Hfresh & Hne & Hb & Hmem & Hos & Hh1 & Hg).
  exists l, mem.
  do 5 (split; [assumption |]). cbv zeta.
  set (fresh := {| next := None; tail := 0;
                   capacity := mem - REGION_HEADER_SIZE; data := ∅ |}) in *.
  assert (regions (grown s os' new l h1) !! new = Some fresh) as Hnew.
  { cbn. rewrite lookup_insert_ne by done. rewrite Hh1.
    apply lookup_insert_eq. }
  split; [exact Hnew |].
  unfold new_region_alloc. rewrite Hcr. cbn. rewrite Hl1. cbn.
  rewrite (region_alloc_spec _ new fresh);
    [| exact Hnew | exact (ok_regions _ Hg _ _ Hnew) | exact Hv].
  destruct (valid_request_inv _ _ Hv) as [_ (k & Hk & Ha)].
  assert (round_up 0 alignment = 0) as Hz
    by (apply round_up_zero; subst alignment; apply Z.pow_pos_nonneg; lia).
  destruct (has_room fresh size alignment); cbn.
  - unfold bump. cbn. rewrite Hz, Z.add_0_r. reflexivity.
  - reflexivity.
Qed.

Lemma arena_alloc_eq s pick size alignment l :
  arena_ok s -> valid_request size alignment = true ->
  regions s !! last s = Some l ->
  _arena_alloc s pick size alignment =
    if has_room l size alignment
    then Ok (Some (data_addr (last s) + round_up (tail l) alignment),
             bump s (last s) l size alignment)
    else new_region_alloc s pick size alignment.
Proof.
  intros Hok Hv Hl. unfold _arena_alloc.
  rewrite (region_alloc_spec _ _ l);
    [| exact Hl | exact (ok_regions _ Hok _ _ Hl) | exact Hv].
  destruct (has_room l size alignment); cbn; [reflexivity |].
  now rewrite set_regions_id.
Qed.

Lemma arena_fit_first_fit s pick size alignment l l1 p r l2 :
  arena_ok s -> valid_request size alignment = true ->
  is_chain (regions s) (first s) l -> l = l1 ++ p :: l2 ->
  Forall (roomless (regions s) size alignment) l1 ->
  regions s !! p = Some r -> has_room r size alignment = true ->
  _arena_fit s pick size alignment =
    Ok (Some (data_addr p + round_up (tail r) alignment),
        bump s p r size alignment).
Proof.
  intros Hok Hv Hc Hl Hall Hp Hroom. unfold _arena_fit.
  destruct (ok_chain _ Hok) as (l' & Hc' & Hnd & _).
  rewrite (is_chain_unique _ _ _ _ Hc' Hc) in Hnd.
  pose proof (chain_length_le _ _ _ Hc Hnd) as Hlen.
  rewrite (fit_loop_first_fit _ size alignment l1 (ok_regions _ Hok) Hv
             (first s) l p r l2) by
    (try assumption; subst l; rewrite length_app in Hlen; cbn in Hlen; lia).
  reflexivity.
Qed.

Lemma arena_fit_roomless s pick size alignment l :
  arena_ok s -> valid_request size alignment = true ->
  is_chain (regions s) (first s) l ->
  Forall (roomless (regions s) size alignment) l ->
  _arena_fit s pick size alignment =
    new_region_alloc s pick size alignment.
Proof.
  intros Hok Hv Hc Hall. unfold _arena_fit.
  destruct (ok_chain _ Hok) as (l' & Hc' & Hnd & _).
  rewrite (is_chain_unique _ _ _ _ Hc' Hc) in Hnd.
  rewrite (fit_loop_roomless _ _ l size alignment Hc (ok_regions _ Hok) Hv
             Hall) by (pose proof (chain_length_le _ _ _ Hc Hnd); lia).
  cbn. now rewrite set_regions_id.
Qed.

(** ** Every execution keeps the invariant *)

Lemma new_region_alloc_sound s log pick size alignment res s' :
  sound s log -> valid_request size alignment = true ->
  new_region_alloc s pick size alignment = Ok (res, s') ->
  sound s' (record_result res size alignment log).
Proof.
  intros Hs Hv Hn.
  destruct (create_region (mappings s) (regions s) pick
              (max size (new_region_capacity s)))
    as [[[new os'] h1] | e] eqn:Hcr;
    [| rewrite (new_region_alloc_stop _ _ _ _ _ Hcr) in Hn; discriminate].
  destruct (new_region_alloc_eq _ _ _ _ _ _ _ (proj1 Hs) Hv Hcr)
    as (l & mem & Hl & _ & _ & _ & _ & Hnew & Heq).
  rewrite Heq in Hn. clear Heq.
  pose proof (sound_grow _ _ _ _ _ _ _ _ Hs Hcr Hl) as Hg.
  match type of Hnew with _ !! _ = Some ?f => set (fresh := f) in * end.
  destruct (has_room fresh size alignment) eqn:Hroom;
    injection Hn as <- <-; cbn [record_result]; [| exact Hg].
  pose proof (sound_bump _ _ _ _ _ _ Hg Hnew Hv Hroom) as Hb.
  destruct (valid_request_inv _ _ Hv) as [_ (k & Hk & Ha)].
  assert (round_up (tail fresh) alignment = 0) as Hz.
  { cbn. apply round_up_zero. subst alignment. apply Z.pow_pos_nonneg; lia. }
  rewrite Hz, Z.add_0_r in Hb. exact Hb.
Qed.

Lemma arena_alloc_sound s log pick size alignment res s' :
  sound s log -> valid_request size alignment = true ->
  _arena_alloc s pick size alignment = Ok (res, s') ->
  sound s' (record_result res size alignment log).
Proof.
  intros Hs Hv Ha.
  destruct (last_in_heap _ (proj1 Hs)) as (l & Hl & _).
  rewrite (arena_alloc_eq _ _ _ _ l (proj1 Hs) Hv Hl) in Ha.
  destruct (has_room l size alignment) eqn:Hroom.
  - injection Ha as <- <-. cbn [record_result].
    apply sound_bump; assumption.
  - eapply new_region_alloc_sound; eauto.
Qed.

Lemma arena_fit_sound s log pick size alignment res s' :
  sound s log -> valid_request size alignment = true ->
  _arena_fit s pick size alignment = Ok (res, s') ->
  sound s' (record_result res size alignment log).
Proof.
  intros Hs Hv Hf.
  destruct (ok_chain _ (proj1 Hs)) as (l & Hc & _ & _).
  destruct (first_fit_split (regions s) size alignment l
              (fun q => is_chain_lookup _ _ _ q Hc))
    as [Hall | (l1 & p & r & l2 & Hl & Hall & Hp & Hroom)].
  - rewrite (arena_fit_roomless _ _ _ _ l (proj1 Hs) Hv Hc Hall) in Hf.
    eapply new_region_alloc_sound; eauto.
  - rewrite (arena_fit_first_fit _ _ _ _ l l1 p r l2 (proj1 Hs) Hv Hc Hl
               Hall Hp Hroom) in Hf.
    injection Hf as <- <-. cbn [record_result].
    apply sound_bump; assumption.
Qed.

Lemma run_sound s log : run s log -> sound s log.
Proof.
  induction 1 as [os pick cap s Hcap Hc
                 | s log cap Hr IH Hcap
                 | s log pick size alignment p s' Hr IH Hv Ha
                 | s log pick size alignment p s' Hr IH Hv Hf].
  - eapply sound_create; eauto.
  - apply sound_set, IH.
  - eapply arena_alloc_sound; eauto.
  - eapply arena_fit_sound; eauto.
Qed.

(** ** Properties of executions *)

(** C3: in every arena built by [create] followed by valid calls of
    [alloc], [fit] and [set_region_capacity], every Region has
    [tail <= capacity]. *)
Theorem tail_le_capacity s log p r :
  run s log -> regions s !! p = Some r -> 0 <= tail r <= capacity r.
Proof.
  intros Hrun Hp. destruct (run_sound _ _ Hrun) as (Hok & _).
  exact (proj1 (ok_regions _ Hok _ _ Hp)).
Qed.

Lemma chain_null_next_is_last h x l p r :
  is_chain h x l -> p ∈ l -> h !! p = Some r -> next r = None ->
  list.last l = Some p.
Proof.
  induction 1 as [y ry Hy Hny | y ry q l Hy Hny Hc IH]; intros Hin Hp Hn.
  - apply list_elem_of_singleton in Hin as ->. reflexivity.
  - destruct (is_chain_head _ _ _ Hc) as [l' ->].
    rewrite last_cons_cons.
    apply elem_of_cons in Hin as [-> | Hin]; [congruence | auto].
Qed.

(** C7: in every arena built by [create] followed by valid calls, the
    [next] links from the embedded first region visit a finite list of
    distinct Regions, [last] is the final one, and it is the only Region
    of the chain whose [next] is null. *)
Theorem chain_acyclic_last_final s log :
  run s log ->
  exists l,
    is_chain (regions s) (first s) l /\ NoDup l /\
    list.last l = Some (last s) /\
    forall p r, p ∈ l -> regions s !! p = Some r ->
      (next r = None <-> p = last s).
Proof.
  intros Hrun. destruct (run_sound _ _ Hrun) as (Hok & _).
  destruct (ok_chain _ Hok) as (l & Hc & Hnd & Hl).
  exists l. do 3 (split; [assumption |]).
  intros p r Hin Hp. split.
  - intros Hn.
    pose proof (chain_null_next_is_last _ _ _ _ _ Hc Hin Hp Hn). congruence.
  - intros ->. destruct (last_in_heap _ Hok) as (r' & Hr' & Hn). congruence.
Qed.

(** The capacity of the Region that growth creates. *)
Lemma growth_capacity s pick size alignment res s' :
  arena_ok s -> valid_request size alignment = true ->
  new_region_alloc s pick size alignment = Ok (res, s') ->
  exists r,
    regions s' !! last s' = Some r /\ regions s !! last s' = None /\
    next r = None /\
    capacity r =
      align_to_page
        (size_t (max size (new_region_capacity s) + REGION_HEADER_SIZE))
      - REGION_HEADER_SIZE.
Proof.
  intros Hok Hv Hn.
  destruct (create_region (mappings s) (regions s) pick
              (max size (new_region_capacity s)))
    as [[[new os'] h1] | e] eqn:Hcr;
    [| rewrite (new_region_alloc_stop _ _ _ _ _ Hcr) in Hn; discriminate].
  destruct (new_region_alloc_eq _ _ _ _ _ _ _ Hok Hv Hcr)
    as (l & mem & Hl & Hmem & _ & _ & Hfresh & Hnew & Heq).
  rewrite Heq in Hn. clear Heq.
  match type of Hnew with _ !! _ = Some ?f => set (fresh := f) in * end.
  destruct (has_room fresh size alignment); injection Hn as <- <-.
  - eexists. split; [apply lookup_insert_eq |].
    split; [exact Hfresh |]. split; [reflexivity |]. cbn. now rewrite Hmem.
  - exists fresh. split; [exact Hnew |].
    split; [exact Hfresh |]. split; [reflexivity |]. cbn. now rewrite Hmem.
Qed.

(** C8: [set_region_capacity] writes [new_region_capacity] and nothing
    else: the Regions (links, cursors, capacities, payloads), [last], the
    handle and the mappings are those of before; the next Region that
    growth creates is sized from the new value. *)
Theorem set_region_capacity_frame s cap :
  (new_region_capacity (set_region_capacity s cap) = cap /\
   regions (set_region_capacity s cap) = regions s /\
   last (set_region_capacity s cap) = last s /\
   arena (set_region_capacity s cap) = arena s /\
   mappings (set_region_capacity s cap) = mappings s) /\
  forall pick size alignment res s',
    arena_ok s -> valid_request size alignment = true ->
    new_region_alloc (set_region_capacity s cap) pick size alignment
      = Ok (res, s') ->
    exists r,
      regions s' !! last s' = Some r /\ regions s !! last s' = None /\
      capacity r =
        align_to_page (size_t (max size cap + REGION_HEADER_SIZE))
        - REGION_HEADER_SIZE.
Proof.
  split; [repeat split |].
  intros pick size alignment res s' Hok Hv Hn.
  destruct (growth_capacity _ _ _ _ _ _ (arena_ok_set s cap Hok) Hv Hn)
    as (r & Hr & Hnone & _ & Hcap).
  exists r. auto.
Qed.

(** C10: [create] stores the requested capacity itself in
    [new_region_capacity], so the Region that growth creates first is
    sized from [max(size, requested capacity)]. *)
Theorem create_keeps_requested_capacity os pick cap s :
  create_arena os pick cap = Ok s ->
  new_region_capacity s = cap /\
  forall pick' size alignment res s',
    valid_request size alignment = true ->
    new_region_alloc s pick' size alignment = Ok (res, s') ->
    exists r,
      regions s' !! last s' = Some r /\ last s' <> first s /\
      capacity r =
        align_to_page (size_t (max size cap + REGION_HEADER_SIZE))
        - REGION_HEADER_SIZE.
Proof.
  intros Hc.
  destruct (create_arena_Ok _ _ _ _ Hc)
    as (mem & _ & _ & _ & _ & _ & _ & Hnrc & Hreg).
  split; [exact Hnrc |].
  intros pick' size alignment res s' Hv Hn.
  destruct (growth_capacity _ _ _ _ _ _ (arena_ok_create _ _ _ _ Hc) Hv Hn)
    as (r & Hr & Hnone & _ & Hcap).
  exists r. split; [exact Hr |]. split; [| now rewrite <- Hnrc].
  intros Heq. rewrite Heq, Hreg, lookup_singleton_eq in Hnone. discriminate.
Qed.

(** C5: [fit] walks the chain from the first region and serves the
    request from the first Region in chain order that has room, whatever
    room later Regions (and [last]) have; it maps no block and creates no
    Region. *)
Theorem fit_prefers_first_region_with_room
    s pick size alignment l l1 p r l2 :
  arena_ok s -> valid_request size alignment = true ->
  is_chain (regions s) (first s) l -> l = l1 ++ p :: l2 ->
  Forall (roomless (regions s) size alignment) l1 ->
  regions s !! p = Some r -> has_room r size alignment = true ->
  exists s',
    _arena_fit s pick size alignment =
      Ok (Some (data_addr p + round_up (tail r) alignment), s') /\
    data_addr p <= data_addr p + round_up (tail r) alignment /\
    data_addr p + round_up (tail r) alignment + size <= region_end p r /\
    mappings s' = mappings s /\ last s' = last s /\
    dom (regions s') = dom (regions s) /\
    regions s' !! p =
      Some (set_tail r (round_up (tail r) alignment + size)) /\
    forall q, q <> p -> regions s' !! q = regions s !! q.
Proof.
  intros Hok Hv Hc Hl Hall Hp Hroom.
  exists (bump s p r size alignment).
  split; [eapply arena_fit_first_fit; eauto |].
  destruct (has_room_bounds _ _ _ Hv Hroom) as (Hs & Ht & Hsz).
  destruct (ok_regions _ Hok _ _ Hp) as [Hr0 _].
  unfold region_end. cbn.
  do 2 (split; [lia |]). do 2 (split; [reflexivity |]).
  split; [| split].
  - apply dom_insert_lookup_L. eauto.
  - apply lookup_insert_eq.
  - intros q Hq. now rewrite lookup_insert_ne.
Qed.

(** ** What holds of sizing and addresses when no [size_t] sum wraps *)

(** [create]: a request that, with the headers and the page rounding,
    stays within [size_t] gets a first region at least that large, in a
    block of whole pages, one page when the request fits one. *)
Lemma create_capacity_in_range os pick cap s :
  in_size_t cap ->
  cap + ARENA_HEADER_SIZE + (page_size - 1) <= SIZE_MAX ->
  create_arena os pick cap = Ok s ->
  exists r,
    regions s !! first s = Some r /\ tail r = 0 /\ next r = None /\
    cap <= capacity r /\
    (capacity r + ARENA_HEADER_SIZE) mod page_size = 0 /\
    page_size <= capacity r + ARENA_HEADER_SIZE /\
    (arena s, capacity r + ARENA_HEADER_SIZE) ∈ mappings s /\
    (cap <= page_size - ARENA_HEADER_SIZE ->
     capacity r = page_size - ARENA_HEADER_SIZE).
Proof.
  intros Hcap Hfit Hc.
  destruct (create_arena_Ok _ _ _ _ Hc)
    as (mem & Hmem & _ & Hb & _ & Hmap & _ & _ & Hreg).
  pose proof page_size_bounds as Hps.
  unfold ARENA_HEADER_SIZE, ARENA_FIRST_OFFSET, REGION_HEADER_SIZE in *.
  rewrite size_t_id in Hmem by size_lia.
  destruct (align_to_page_spec (cap + (16 + 24))
              ltac:(size_lia))
    as (q & Hq & Heq & _ & Hround).
  specialize (Hround ltac:(lia)). rewrite <- Heq, <- Hmem in Hround.
  eexists. split; [rewrite Hreg; apply lookup_singleton_eq |]. cbn.
  do 2 (split; [reflexivity |]). split; [lia |].
  replace (mem - (16 + 24) + (16 + 24)) with mem by lia.
  split; [rewrite Hmem, Heq; apply Z.mod_mul; lia |].
  split; [lia |]. split; [rewrite Hmap; apply list_elem_of_here |].
  intros Hone.
  assert (q = 1); [| subst q; lia].
  rewrite Hmem, Heq in Hround, Hb.
  assert (q < 2) by (apply (Z.mul_lt_mono_pos_r page_size); lia).
  assert (0 < q) by (apply (Z.mul_lt_mono_pos_r page_size); lia).
  lia.
Qed.

(** Growth: when [max(size, new_region_capacity)], with the header and
    the page rounding, stays within [size_t], the new Region is large
    enough and serves the request. *)
Lemma growth_serves s pick size alignment res s' :
  arena_ok s -> valid_request size alignment = true ->
  in_size_t (new_region_capacity s) ->
  max size (new_region_capacity s) + REGION_HEADER_SIZE + (page_size - 1)
    <= SIZE_MAX ->
  new_region_alloc s pick size alignment = Ok (res, s') ->
  exists l r,
    regions s !! last s = Some l /\ regions s !! last s' = None /\
    regions s' !! last s = Some (set_next l (Some (last s'))) /\
    regions s' !! last s' = Some r /\ next r = None /\
    res = Some (data_addr (last s')) /\ tail r = size /\
    size <= capacity r /\ new_region_capacity s <= capacity r /\
    (capacity r + REGION_HEADER_SIZE) mod page_size = 0.
Proof.
  intros Hok Hv Hnrc Hfit Hn.
  destruct (create_region (mappings s) (regions s) pick
              (max size (new_region_capacity s)))
    as [[[new os'] h1] | e] eqn:Hcr;
    [| rewrite (new_region_alloc_stop _ _ _ _ _ Hcr) in Hn; discriminate].
  destruct (new_region_alloc_eq _ _ _ _ _ _ _ Hok Hv Hcr)
    as (l & mem & Hl & Hmem & Hb & _ & Hfresh & Hnew & Heq).
  rewrite Heq in Hn. clear Heq.
  destruct (valid_request_inv _ _ Hv) as [Hsize (k & Hk & Ha)].
  assert (in_size_t (max size (new_region_capacity s))) as Hmax
    by (unfold max; destruct (_ >? _); unfold in_size_t in *; lia).
  assert (size <= max size (new_region_capacity s) /\
          new_region_capacity s <= max size (new_region_capacity s))
    as [Hge1 Hge2] by (unfold max; destruct (_ >? _) eqn:E; lia).
  pose proof page_size_bounds as Hps.
  unfold REGION_HEADER_SIZE in *.
  rewrite size_t_id in Hmem by size_lia.
  destruct (align_to_page_spec (max size (new_region_capacity s) + 24)
              ltac:(size_lia))
    as (q & Hq & Heq & _ & Hround).
  specialize (Hround ltac:(lia)). rewrite <- Heq, <- Hmem in Hround.
  assert (new <> last s) as Hne by congruence.
  assert (round_up 0 alignment = 0) as Hz
    by (apply round_up_zero; subst alignment; apply Z.pow_pos_nonneg; lia).
  match type of Hnew with _ !! _ = Some ?f => set (fresh := f) in * end.
  assert (has_room fresh size alignment = true) as Hroom
    by (unfold has_room, fresh; cbn; rewrite Hz; lia).
  rewrite Hroom in Hn. injection Hn as <- <-. cbn.
  exists l. eexists.
  split; [exact Hl |]. split; [exact Hfresh |].
  split; [rewrite lookup_insert_ne by done; apply lookup_insert_eq |].
  split; [apply lookup_insert_eq |]. cbn. rewrite Hz.
  split; [reflexivity |]. split; [reflexivity |].
  split; [lia |]. split; [lia |]. split; [lia |].
  replace (mem - 24 + 24) with mem by lia.
  rewrite Hmem, Heq. apply Z.mod_mul. lia.
Qed.

(** Growth ends the process only when the kernel refuses the block. *)
Lemma new_region_alloc_stops s pick size alignment e :
  arena_ok s -> valid_request size alignment = true ->
  new_region_alloc s pick size alignment = Stop e -> e = MapFailed.
Proof.
  intros Hok Hv Hn.
  destruct (create_region (mappings s) (regions s) pick
              (max size (new_region_capacity s)))
    as [[[new os'] h1] | e'] eqn:Hcr.
  - destruct (new_region_alloc_eq _ _ _ _ _ _ _ Hok Hv Hcr)
      as (l & mem & _ & _ & _ & _ & _ & _ & Heq).
    rewrite Heq in Hn. destruct (has_room _ _ _); discriminate.
  - rewrite (new_region_alloc_stop _ _ _ _ _ Hcr) in Hn.
    injection Hn as <-. unfold create_region, alloc_mem in Hcr.
    cbv zeta in Hcr. destruct (mmap _ _ _); cbn in Hcr; congruence.
Qed.

(** [alloc], in that range: the caller gets a pointer, or the process
    ends in [exit(1)] because the kernel refused the block. *)
Lemma arena_alloc_in_range s pick size alignment :
  arena_ok s -> valid_request size alignment = true ->
  in_size_t (new_region_capacity s) ->
  max size (new_region_capacity s) + REGION_HEADER_SIZE + (page_size - 1)
    <= SIZE_MAX ->
  (exists p s', _arena_alloc s pick size alignment = Ok (Some p, s')) \/
  _arena_alloc s pick size alignment = Stop MapFailed.
Proof.
  intros Hok Hv Hnrc Hfit.
  destruct (last_in_heap _ Hok) as (l & Hl & _).
  rewrite (arena_alloc_eq _ _ _ _ l Hok Hv Hl).
  destruct (has_room l size alignment); [left; eauto |].
  destruct (new_region_alloc s pick size alignment) as [[res s'] | e] eqn:Hn.
  - left. destruct (growth_serves _ _ _ _ _ _ Hok Hv Hnrc Hfit Hn)
      as (_ & _ & _ & _ & _ & _ & _ & -> & _). eauto.
  - right. f_equal. eapply new_region_alloc_stops; eauto.
Qed.

(** ** Returned blocks *)

Lemma disjoint_sym a b : disjoint a b -> disjoint b a.
Proof. unfold disjoint. tauto. Qed.

Lemma pairwise_disjoint_lookup log (i j : nat) a b :
  pairwise_disjoint log -> i <> j ->
  log !! i = Some a -> log !! j = Some b -> disjoint a b.
Proof.
  revert i j. induction log as [| x log IH]; intros i j Hd Hne Hi Hj;
    [discriminate |].
  destruct Hd as [Hx Hd]. rewrite Forall_forall in Hx.
  destruct i as [| i], j as [| j]; cbn in Hi, Hj.
  - contradiction.
  - injection Hi as ->. apply Hx. eapply list_elem_of_lookup_2; eauto.
  - injection Hj as ->. apply disjoint_sym, Hx.
    eapply list_elem_of_lookup_2; eauto.
  - eapply (IH i j); eauto.
Qed.

(** The blocks that the calls of an execution return never overlap. *)
Lemma returned_blocks_disjoint s log (i j : nat) a b :
  run s log -> i <> j -> log !! i = Some a -> log !! j = Some b ->
  disjoint a b.
Proof.
  intros Hrun. destruct (run_sound _ _ Hrun) as (_ & _ & Hd).
  now apply pairwise_disjoint_lookup.
Qed.

(** Payloads start 24 bytes after a multiple of 16, and [region_alloc]
    aligns the offset into the payload: a returned address is a multiple
    of the requested alignment up to 8, and 8 more than a multiple of 16
    when the alignment is 16. *)
Lemma returned_pointer_residue s log a :
  run s log -> a ∈ log ->
  (a_alignment a <= 8 -> a_ptr a mod a_alignment a = 0) /\
  (a_alignment a = 16 -> a_ptr a mod 16 = 8).
Proof.
  intros Hrun Ha. destruct (run_sound _ _ Hrun) as (Hok & Hlog & _).
  destruct (Hlog a Ha) as (Hv & p & r & Hp & _ & _ & Hmod).
  pose proof (ok_placed _ Hok _ _ Hp) as Hpl.
  destruct (valid_request_inv _ _ Hv) as [_ (k & Hk & Hal)].
  unfold data_addr, REGION_HEADER_SIZE, MAX_ALIGN in *.
  assert (k = 0 \/ k = 1 \/ k = 2 \/ k = 3 \/ k = 4) as Hcases by lia.
  destruct Hcases as [-> | [-> | [-> | [-> | ->]]]]; rewrite Hal in *;
    [ change (2 ^ 0) with 1 in * | change (2 ^ 1) with 2 in *
    | change (2 ^ 2) with 4 in * | change (2 ^ 3) with 8 in *
    | change (2 ^ 4) with 16 in * ];
    Z.div_mod_to_equations; lia.
Qed.

(** * Further properties of the helpers and of [region_alloc] *)

(** X1: on a power of two, and when [n + alignment - 1] does not wrap,
    [align] returns the least multiple of the alignment that is at least
    [n]; it adds less than one alignment and aligning again changes
    nothing. *)
Theorem align_least_multiple n k :
  0 <= k < 64 -> 0 <= n -> n + (2 ^ k - 1) <= SIZE_MAX ->
  align n (2 ^ k) mod 2 ^ k = 0 /\
  n <= align n (2 ^ k) < n + 2 ^ k /\
  (forall m, m mod 2 ^ k = 0 -> n <= m -> align n (2 ^ k) <= m) /\
  align (align n (2 ^ k)) (2 ^ k) = align n (2 ^ k).
Proof.
  intros Hk Hn Hs.
  assert (0 < 2 ^ k) as HP by (apply Z.pow_pos_nonneg; lia).
  rewrite (align_round_up n k Hk Hn Hs).
  destruct (round_up_spec n (2 ^ k) HP) as [Hb Hm].
  set (a := round_up n (2 ^ k)) in *.
  apply Z.mod_divide in Hm as [i Hi]; [| lia].
  split; [rewrite Hi; apply Z.mod_mul; lia |]. split; [exact Hb |]. split.
  - intros m Hmm Hnm. apply Z.mod_divide in Hmm as [j Hj]; [| lia].
    destruct (Z_lt_le_dec m a) as [Hlt | Hle]; [| exact Hle].
    assert (j < i) by (apply (Z.mul_lt_mono_pos_r (2 ^ k)); lia).
    assert ((j + 1) * 2 ^ k <= i * 2 ^ k)
      by (apply Z.mul_le_mono_nonneg_r; lia).
    lia.
  - assert (2 ^ 64 = 2 ^ (64 - k) * 2 ^ k) as H64
      by (rewrite <- Z.pow_add_r by lia; f_equal; lia).
    assert (i < 2 ^ (64 - k))
      by (apply (Z.mul_lt_mono_pos_r (2 ^ k)); size_lia).
    assert ((i + 1) * 2 ^ k <= 2 ^ (64 - k) * 2 ^ k)
      by (apply Z.mul_le_mono_nonneg_r; lia).
    assert (0 <= a) by lia.
    rewrite align_round_up by size_lia.
    unfold round_up. rewrite Hi.
    replace (i * 2 ^ k + 2 ^ k - 1) with ((2 ^ k - 1) + i * 2 ^ k) by lia.
    rewrite Z.div_add by lia. rewrite Z.div_small by lia. lia.
Qed.

Lemma align_overflow n k :
  in_size_t n -> 0 <= k < 64 -> SIZE_MAX < n + (2 ^ k - 1) ->
  align n (2 ^ k) = 0.
Proof.
  intros Hn Hk Hw. rewrite align_pow2 by exact Hk.
  assert (0 < 2 ^ k) as HP by (apply Z.pow_pos_nonneg; lia).
  assert (2 ^ k < 2 ^ 64) by (apply Z.pow_lt_mono_r; lia).
  assert (size_t (n + (2 ^ k - 1)) = n + (2 ^ k - 1) - 2 ^ 64) as ->.
  { unfold size_t, SIZE_BITS. symmetry.
    apply (Z.mod_unique _ _ 1); size_lia. }
  rewrite Z.div_small by size_lia. lia.
Qed.

(** X2: when [n + alignment - 1] exceeds [SIZE_MAX] the sum wraps and
    [align] returns 0, below its argument. *)
Theorem align_wraps_to_zero n k :
  in_size_t n -> 0 <= k < 64 -> SIZE_MAX < n + (2 ^ k - 1) ->
  align n (2 ^ k) = 0 /\ align n (2 ^ k) < n.
Proof.
  intros Hn Hk Hw. rewrite (align_overflow n k Hn Hk Hw).
  split; [reflexivity |].
  assert (2 ^ k <= 2 ^ 63) by (apply Z.pow_le_mono_r; lia). size_lia.
Qed.

(** X3: on [size_t] values the macro [is_power_of_two] holds exactly of
    the powers of two; in particular it rejects 0. *)
Theorem is_power_of_two_spec v :
  in_size_t v ->
  is_power_of_two v = true <-> exists k, 0 <= k < 64 /\ v = 2 ^ k.
Proof.
  intros Hv. split; [| intros (k & Hk & ->); now apply is_power_of_two_pow2].
  unfold is_power_of_two. intros H.
  apply andb_true_iff in H as [Hnz Hland].
  apply negb_true_iff, Z.eqb_neq in Hnz. apply Z.eqb_eq in Hland.
  assert (0 < v) as Hpos by size_lia.
  rewrite size_t_id in Hland by size_lia.
  destruct (Z.log2_spec v Hpos) as [Hlo Hhi].
  assert (0 <= Z.log2 v) as Hl0 by apply Z.log2_nonneg.
  exists (Z.log2 v). split.
  - split; [exact Hl0 |].
    apply Z.log2_lt_pow2; [exact Hpos | size_lia].
  - destruct (Z.eq_dec v (2 ^ Z.log2 v)) as [He | Hne]; [exact He |].
    exfalso.
    assert (Z.log2 (v - 1) = Z.log2 v) as Hl1
      by (apply Z.log2_unique; [exact Hl0 | rewrite <- Z.add_1_r in Hhi; lia]).
    assert (Z.testbit (Z.land v (v - 1)) (Z.log2 v) = true) as Hbit.
    { rewrite Z.land_spec, (Z.bit_log2 v Hpos). cbn.
      rewrite <- Hl1. apply Z.bit_log2.
      assert (0 < 2 ^ Z.log2 v) by (apply Z.pow_pos_nonneg; lia). lia. }
    rewrite Hland, Z.bits_0 in Hbit. discriminate.
Qed.

(** X5: a request that violates the contract (a zero size, an alignment
    that is no power of two or exceeds [alignof(max_align_t)]) trips an
    assertion in [region_alloc] before any Region is read, also through
    [_arena_alloc] and [_arena_fit]. *)
Theorem invalid_request_aborts h p s pick size alignment :
  in_size_t size -> in_size_t alignment ->
  valid_request size alignment = false ->
  region_alloc h p size alignment = Stop AssertFailed /\
  _arena_alloc s pick size alignment = Stop AssertFailed /\
  _arena_fit s pick size alignment = Stop AssertFailed.
Proof.
  intros Hs Ha Hv.
  assert (forall h' p', region_alloc h' p' size alignment = Stop AssertFailed)
    as Hr.
  { intros h' p'. unfold region_alloc, valid_request in *.
    destruct (size >? 0) eqn:E1; [| reflexivity]. cbn.
    destruct ((alignment <=? MAX_ALIGN) && is_power_of_two alignment) eqn:E2;
      [| reflexivity].
    exfalso. apply andb_true_iff in E2 as [E2 E3].
    assert ((0 <? size) && (size <=? SIZE_MAX) && (0 <=? alignment) = true)
      as E4 by (repeat (apply andb_true_iff; split); size_lia).
    rewrite E4, E2, E3 in Hv. discriminate. }
  split; [apply Hr |]. split.
  - unfold _arena_alloc. now rewrite Hr.
  - unfold _arena_fit. cbn [fit_loop]. now rewrite Hr.
Qed.

(** X6: a successful [region_alloc] returns a block that starts at or
    after the old cursor, with less than one alignment of padding and at
    an offset into the payload that is a multiple of the alignment; the
    block ends at the new cursor, inside the payload; capacity, link and
    payload of the Region and every other Region are untouched. *)
Theorem region_alloc_success_frame h p r size alignment q h' :
  h !! p = Some r -> region_ok r ->
  valid_request size alignment = true ->
  region_alloc h p size alignment = Ok (Some q, h') ->
  exists r',
    h' !! p = Some r' /\
    capacity r' = capacity r /\ next r' = next r /\ data r' = data r /\
    data_addr p + tail r <= q < data_addr p + tail r + alignment /\
    (q - data_addr p) mod alignment = 0 /\
    q + size = data_addr p + tail r' /\ tail r' <= capacity r /\
    forall p', p' <> p -> h' !! p' = h !! p'.
Proof.
  intros Hp Hr Hv. rewrite (region_alloc_spec h p r) by assumption.
  destruct (has_room r size alignment) eqn:Hroom; [| discriminate].
  intros [= <- <-].
  destruct (has_room_bounds _ _ _ Hv Hroom) as (Hs & Ht & Hsz).
  destruct (round_up_tail r size alignment Hv) as [Hb Hm].
  eexists. split; [apply lookup_insert_eq |]. cbn.
  do 3 (split; [reflexivity |]). split; [lia |].
  split; [| split; [lia | split; [lia |]]].
  - replace (data_addr p + round_up (tail r) alignment - data_addr p)
      with (round_up (tail r) alignment) by lia. exact Hm.
  - intros p' Hne. now rewrite lookup_insert_ne.
Qed.

(** X7: a Region with fewer free bytes than the request asks for serves
    nothing, whatever the alignment, and stays as it is; so does a full
    Region for every request. *)
Theorem region_alloc_short_of_room h p r size alignment :
  h !! p = Some r -> region_ok r ->
  valid_request size alignment = true ->
  capacity r - tail r < size ->
  region_alloc h p size alignment = Ok (None, h).
Proof.
  intros Hp Hr Hv Hshort. rewrite (region_alloc_spec h p r) by assumption.
  destruct (round_up_tail r size alignment Hv) as [Hb _].
  unfold has_room. destruct (_ <=? _) eqn:E; [lia | reflexivity].
Qed.

(** * Further properties of the entry points *)

(** X4: [align_to_page] returns a [size_t] multiple of the page size: the
    least one at or above its argument when the sum does not wrap, and 0
    when it does. *)
Theorem align_to_page_multiple n :
  in_size_t n ->
  in_size_t (align_to_page n) /\ align_to_page n mod page_size = 0 /\
  (n + (page_size - 1) <= SIZE_MAX ->
   n <= align_to_page n < n + page_size) /\
  (SIZE_MAX < n + (page_size - 1) -> align_to_page n = 0).
Proof.
  intros Hn. pose proof page_size_bounds as Hps.
  destruct (align_to_page_spec n Hn) as (q & Hq & Heq & Hmax & Hround).
  split; [apply align_range, Hn |].
  split; [rewrite Heq; apply Z.mod_mul; lia |].
  split; [intros H; rewrite Heq; auto |].
  intros Hw. apply align_overflow; [exact Hn | lia | exact Hw].
Qed.

(** ** The shape of a step *)

Lemma new_region_alloc_shape s pick size alignment res s' :
  arena_ok s -> valid_request size alignment = true ->
  new_region_alloc s pick size alignment = Ok (res, s') ->
  exists g, extended s g /\ (s' = g \/ served g size alignment s').
Proof.
  intros Hok Hv Hn.
  destruct (create_region (mappings s) (regions s) pick
              (max size (new_region_capacity s)))
    as [[[new os'] h1] | e] eqn:Hcr;
    [| rewrite (new_region_alloc_stop _ _ _ _ _ Hcr) in Hn; discriminate].
  destruct (new_region_alloc_eq _ _ _ _ _ _ _ Hok Hv Hcr)
    as (l & mem & Hl & _ & _ & _ & _ & Hnew & Heq).
  rewrite Heq in Hn. clear Heq.
  exists (grown s os' new l h1).
  split; [exists pick, (max size (new_region_capacity s)), new, os', h1, l;
          auto |].
  match type of Hnew with _ !! _ = Some ?f => set (fresh := f) in * end.
  destruct (has_room fresh size alignment) eqn:Hroom; injection Hn as <- <-;
    [right | left; reflexivity].
  exists new, fresh. auto.
Qed.

Lemma alloc_step_shape s pick size alignment res s' :
  arena_ok s -> valid_request size alignment = true ->
  _arena_alloc s pick size alignment = Ok (res, s') ->
  step_shape s size alignment s'.
Proof.
  intros Hok Hv Ha. destruct (last_in_heap _ Hok) as (l & Hl & _).
  rewrite (arena_alloc_eq _ _ _ _ l Hok Hv Hl) in Ha.
  destruct (has_room l size alignment) eqn:Hroom.
  - injection Ha as <- <-. left. exists (last s), l. auto.
  - right. eapply new_region_alloc_shape; eauto.
Qed.

Lemma fit_step_shape s pick size alignment res s' :
  arena_ok s -> valid_request size alignment = true ->
  _arena_fit s pick size alignment = Ok (res, s') ->
  step_shape s size alignment s'.
Proof.
  intros Hok Hv Hf. destruct (ok_chain _ Hok) as (l & Hc & _ & _).
  destruct (first_fit_split (regions s) size alignment l
              (fun q => is_chain_lookup _ _ _ q Hc))
    as [Hall | (l1 & p & r & l2 & Hl & Hall & Hp & Hroom)].
  - rewrite (arena_fit_roomless _ _ _ _ l Hok Hv Hc Hall) in Hf.
    right. eapply new_region_alloc_shape; eauto.
  - rewrite (arena_fit_first_fit _ _ _ _ l l1 p r l2 Hok Hv Hc Hl
               Hall Hp Hroom) in Hf.
    injection Hf as <- <-. left. exists p, r. auto.
Qed.

(** What a Region that serves a request keeps. *)
Lemma served_keeps s size alignment s' :
  valid_request size alignment = true -> served s size alignment s' ->
  mappings s' = mappings s /\ arena s' = arena s /\ last s' = last s /\
  new_region_capacity s' = new_region_capacity s /\
  dom (regions s') = dom (regions s) /\
  forall p r, regions s !! p = Some r ->
    exists r', regions s' !! p = Some r' /\ capacity r' = capacity r /\
      next r' = next r /\ data r' = data r /\ tail r <= tail r'.
Proof.
  intros Hv (p & r & Hp & Hroom & ->).
  destruct (has_room_bounds _ _ _ Hv Hroom) as (Hs & Ht & Hsz).
  do 4 (split; [reflexivity |]).
  split; [cbn; apply dom_insert_lookup_L; eauto |].
  intros q x Hq. cbn. destruct (decide (p = q)) as [<- | Hne].
  - rewrite lookup_insert_eq. eexists. split; [reflexivity |].
    assert (x = r) as -> by congruence. cbn. repeat split; lia.
  - rewrite lookup_insert_ne by done. exists x. repeat split; auto. lia.
Qed.

(** What growth keeps: every Region that existed, but for the link of the
    former [last]; one mapping and one Region are added. *)
Lemma extended_keeps s g :
  arena_ok s -> extended s g ->
  arena g = arena s /\ new_region_capacity g = new_region_capacity s /\
  (exists b, mappings g = b :: mappings s) /\
  regions s !! last g = None /\
  dom (regions g) = {[ last g ]} ∪ dom (regions s) /\
  forall p r, regions s !! p = Some r ->
    exists r', regions g !! p = Some r' /\ capacity r' = capacity r /\
      data r' = data r /\ tail r' = tail r /\
      (p <> last s -> next r' = next r).
Proof.
  intros Hok (pick & cap & new & os' & h1 & l & Hcr & Hl & ->).
  destruct (arena_ok_grow _ _ _ _ _ _ Hok Hcr)
    as (l' & mem & Hl' & _ & Hfresh & Hne & _ & _ & -> & -> & Hg).
  do 2 (split; [reflexivity |]). split; [eexists; reflexivity |].
  split; [exact Hfresh |]. cbn. split.
  - rewrite dom_insert_lookup_L
      by (rewrite lookup_insert_ne by done; eauto).
    apply dom_insert_L.
  - intros p r Hp. destruct (decide (last s = p)) as [<- | Hq].
    + rewrite lookup_insert_eq. eexists. split; [reflexivity |].
      assert (r = l) as -> by congruence. cbn. repeat split; congruence.
    + rewrite lookup_insert_ne by done.
      rewrite lookup_insert_ne by congruence. exists r. auto.
Qed.

(** X8: [_arena_alloc] looks at [last] only: when [last] has no room it
    creates a Region, whatever room earlier Regions have, links it after
    the former [last] and leaves every other Region as it was. *)
Theorem alloc_grows_past_earlier_room s pick size alignment l res s' :
  arena_ok s -> valid_request size alignment = true ->
  regions s !! last s = Some l -> has_room l size alignment = false ->
  _arena_alloc s pick size alignment = Ok (res, s') ->
  regions s !! last s' = None /\
  (res = None \/ res = Some (data_addr (last s'))) /\
  regions s' !! last s = Some (set_next l (Some (last s'))) /\
  forall p r, regions s !! p = Some r -> p <> last s ->
    regions s' !! p = Some r.
Proof.
  intros Hok Hv Hl Hroom Ha.
  rewrite (arena_alloc_eq _ _ _ _ l Hok Hv Hl), Hroom in Ha.
  destruct (create_region (mappings s) (regions s) pick
              (max size (new_region_capacity s)))
    as [[[new os'] h1] | e] eqn:Hcr;
    [| rewrite (new_region_alloc_stop _ _ _ _ _ Hcr) in Ha; discriminate].
  destruct (arena_ok_grow _ _ _ _ _ _ Hok Hcr)
    as (l' & mem' & Hl' & _ & Hfresh & Hne & _ & _ & _ & Hh1 & _).
  destruct (new_region_alloc_eq _ _ _ _ _ _ _ Hok Hv Hcr)
    as (l'' & mem & Hl'' & _ & _ & _ & _ & Hnew & Heq).
  assert (l'' = l) as -> by congruence.
  rewrite Heq in Ha. clear Heq.
  match type of Hnew with _ !! _ = Some ?f => set (fresh := f) in * end.
  destruct (has_room fresh size alignment); injection Ha as <- <-; cbn.
  - split; [exact Hfresh |]. split; [auto |]. split.
    + rewrite lookup_insert_ne by done. apply lookup_insert_eq.
    + intros p r Hp Hpl. rewrite !lookup_insert_ne by congruence.
      rewrite Hh1, lookup_insert_ne by congruence. exact Hp.
  - split; [exact Hfresh |]. split; [auto |]. split.
    + apply lookup_insert_eq.
    + intros p r Hp Hpl. rewrite lookup_insert_ne by congruence.
      rewrite Hh1, lookup_insert_ne by congruence. exact Hp.
Qed.

(** X9: when no Region of the chain has room, [_arena_fit] does what
    growth does: it is [new_region_alloc], outcome for outcome. *)
Theorem fit_grows_when_no_region_has_room s pick size alignment l :
  arena_ok s -> valid_request size alignment = true ->
  is_chain (regions s) (first s) l ->
  Forall (roomless (regions s) size alignment) l ->
  _arena_fit s pick size alignment = new_region_alloc s pick size alignment.
Proof. apply arena_fit_roomless. Qed.

(** X10: when no Region before [last] has room, [_arena_fit] and
    [_arena_alloc] are the same call: same pointer, same state, same
    stop. *)
Theorem fit_agrees_with_alloc s pick size alignment l1 :
  arena_ok s -> valid_request size alignment = true ->
  is_chain (regions s) (first s) (l1 ++ [last s]) ->
  Forall (roomless (regions s) size alignment) l1 ->
  _arena_fit s pick size alignment = _arena_alloc s pick size alignment.
Proof.
  intros Hok Hv Hc Hall. destruct (last_in_heap _ Hok) as (l & Hl & _).
  rewrite (arena_alloc_eq _ _ _ _ l Hok Hv Hl).
  destruct (has_room l size alignment) eqn:Hroom.
  - eapply arena_fit_first_fit; eauto.
  - eapply arena_fit_roomless; eauto.
    apply Forall_app. split; [exact Hall |].
    apply Forall_singleton. intros r Hr. congruence.
Qed.

Lemma arena_alloc_stops s pick size alignment e :
  arena_ok s -> valid_request size alignment = true ->
  _arena_alloc s pick size alignment = Stop e -> e = MapFailed.
Proof.
  intros Hok Hv Ha. destruct (last_in_heap _ Hok) as (l & Hl & _).
  rewrite (arena_alloc_eq _ _ _ _ l Hok Hv Hl) in Ha.
  destruct (has_room l size alignment); [discriminate |].
  eapply new_region_alloc_stops; eauto.
Qed.

Lemma arena_fit_stops s pick size alignment e :
  arena_ok s -> valid_request size alignment = true ->
  _arena_fit s pick size alignment = Stop e -> e = MapFailed.
Proof.
  intros Hok Hv Hf. destruct (ok_chain _ Hok) as (l & Hc & _ & _).
  destruct (first_fit_split (regions s) size alignment l
              (fun q => is_chain_lookup _ _ _ q Hc))
    as [Hall | (l1 & p & r & l2 & Hl & Hall & Hp & Hroom)].
  - rewrite (arena_fit_roomless _ _ _ _ l Hok Hv Hc Hall) in Hf.
    eapply new_region_alloc_stops; eauto.
  - rewrite (arena_fit_first_fit _ _ _ _ l l1 p r l2 Hok Hv Hc Hl
               Hall Hp Hroom) in Hf. discriminate.
Qed.

(** X11: in an execution a valid call of [_arena_alloc] or [_arena_fit]
    returns, or ends the process in [exit(1)] because the kernel refused
    a block: no assertion fails, no dangling pointer is read and the loop
    of [_arena_fit] ends. *)
Theorem valid_calls_stop_only_on_map_failure s log pick size alignment e :
  run s log -> valid_request size alignment = true ->
  (_arena_alloc s pick size alignment = Stop e -> e = MapFailed) /\
  (_arena_fit s pick size alignment = Stop e -> e = MapFailed).
Proof.
  intros Hrun Hv. destruct (run_sound _ _ Hrun) as (Hok & _).
  split; [apply arena_alloc_stops | apply arena_fit_stops]; assumption.
Qed.

(** X12: the blocks returned in one execution, by [_arena_alloc] and
    [_arena_fit] in any mix, are pairwise disjoint. *)
Theorem blocks_never_overlap s log (i j : nat) a b :
  run s log -> i <> j -> log !! i = Some a -> log !! j = Some b ->
  a_ptr a + a_size a <= a_ptr b \/ a_ptr b + a_size b <= a_ptr a.
Proof. apply returned_blocks_disjoint. Qed.


(** X14: every returned block lies in the used part of the payload of a
    Region of the arena, and so inside a live mapping. *)
Theorem blocks_lie_in_mapped_payload s log a :
  run s log -> a ∈ log ->
  0 < a_size a /\
  exists p r b,
    regions s !! p = Some r /\ b ∈ mappings s /\
    data_addr p <= a_ptr a /\
    a_ptr a + a_size a <= data_addr p + tail r /\
    tail r <= capacity r /\
    b.1 <= a_ptr a /\ a_ptr a + a_size a <= b.1 + b.2.
Proof.
  intros Hrun Ha. destruct (run_sound _ _ Hrun) as (Hok & Hlog & _).
  destruct (Hlog a Ha) as (Hv & p & r & Hp & Hlo & Hhi & _).
  destruct (valid_request_inv _ _ Hv) as [Hsz _].
  destruct (ok_regions _ Hok _ _ Hp) as [Ht _].
  destruct (ok_mapped _ Hok _ _ Hp) as (b & Hb & Hb1 & Hb2).
  split; [lia |]. exists p, r, b.
  unfold region_end, data_addr, REGION_HEADER_SIZE in *.
  repeat split; try assumption; lia.
Qed.

(** X15: growth without wrap-around.  When
    [max(size, new_region_capacity) + REGION_HEADER_SIZE], rounded up to
    a page, fits [size_t], the Region that [new_region_alloc] creates has
    at least [max(size, new_region_capacity)] bytes of payload in whole
    pages, becomes [last] after the former one, and serves the request
    from the start of its payload. *)
Theorem growth_without_wrap_serves s pick size alignment res s' :
  arena_ok s -> valid_request size alignment = true ->
  in_size_t (new_region_capacity s) ->
  max size (new_region_capacity s) + REGION_HEADER_SIZE + (page_size - 1)
    <= SIZE_MAX ->
  new_region_alloc s pick size alignment = Ok (res, s') ->
  exists l r,
    regions s !! last s = Some l /\ regions s !! last s' = None /\
    regions s' !! last s = Some (set_next l (Some (last s'))) /\
    regions s' !! last s' = Some r /\ next r = None /\
    res = Some (data_addr (last s')) /\ tail r = size /\
    size <= capacity r /\ new_region_capacity s <= capacity r /\
    (capacity r + REGION_HEADER_SIZE) mod page_size = 0.
Proof. apply growth_serves. Qed.

(** X16: [create_arena] without wrap-around.  When
    [capacity + ARENA_HEADER_SIZE], rounded up to a page, fits [size_t],
    the arena has one empty Region of at least [capacity] bytes, its
    block is a whole number of pages, and a request that fits one page
    gets exactly one. *)
Theorem create_without_wrap os pick cap s :
  in_size_t cap ->
  cap + ARENA_HEADER_SIZE + (page_size - 1) <= SIZE_MAX ->
  create_arena os pick cap = Ok s ->
  exists r,
    regions s !! first s = Some r /\ tail r = 0 /\ next r = None /\
    cap <= capacity r /\
    (capacity r + ARENA_HEADER_SIZE) mod page_size = 0 /\
    page_size <= capacity r + ARENA_HEADER_SIZE /\
    (arena s, capacity r + ARENA_HEADER_SIZE) ∈ mappings s /\
    (cap <= page_size - ARENA_HEADER_SIZE ->
     capacity r = page_size - ARENA_HEADER_SIZE).
Proof. apply create_capacity_in_range. Qed.

(** X17: a capacity whose sum with the header lies in the last page
    below [2 ^ 64] makes [align_to_page] wrap to 0: [mmap] is asked for
    no bytes, refuses, and [create_arena] and [create_region] end the
    process whatever the kernel would have granted. *)
Theorem zero_length_request_exits os h pick cap :
  in_size_t cap ->
  (SIZE_MAX - page_size < cap + ARENA_HEADER_SIZE - 1 < SIZE_MAX ->
   create_arena os pick cap = Stop MapFailed) /\
  (SIZE_MAX - page_size < cap + REGION_HEADER_SIZE - 1 < SIZE_MAX ->
   create_region os h pick cap = Stop MapFailed).
Proof.
  intros Hcap. pose proof page_size_bounds as Hps.
  assert (forall hdr, 0 <= hdr ->
            SIZE_MAX - page_size < cap + hdr - 1 < SIZE_MAX ->
            alloc_mem os pick (align_to_page (size_t (cap + hdr)))
              = Stop MapFailed) as Hzero.
  { intros hdr Hh Hw. rewrite size_t_id by size_lia.
    unfold align_to_page, page_size.
    rewrite align_overflow; [| size_lia | lia | fold page_size; lia].
    unfold alloc_mem, mmap. destruct pick; reflexivity. }
  split; intros Hw.
  - unfold create_arena. cbv zeta.
    rewrite (Hzero ARENA_HEADER_SIZE) by (try exact Hw; size_lia).
    reflexivity.
  - unfold create_region. cbv zeta.
    rewrite (Hzero REGION_HEADER_SIZE) by (try exact Hw; size_lia).
    reflexivity.
Qed.

(** X18: a valid call of [_arena_alloc] or [_arena_fit] in an execution
    keeps the handle and [new_region_capacity], maps at most one block
    and unmaps none, and keeps every Region where it is, with its
    capacity and payload; a cursor never moves back. *)
Theorem calls_keep_what_exists s log pick size alignment res s' :
  run s log -> valid_request size alignment = true ->
  _arena_alloc s pick size alignment = Ok (res, s') \/
  _arena_fit s pick size alignment = Ok (res, s') ->
  arena s' = arena s /\
  new_region_capacity s' = new_region_capacity s /\
  (mappings s' = mappings s \/ exists b, mappings s' = b :: mappings s) /\
  forall p r, regions s !! p = Some r ->
    exists r', regions s' !! p = Some r' /\ capacity r' = capacity r /\
      data r' = data r /\ tail r <= tail r'.
Proof.
  intros Hrun Hv Hcall. destruct (run_sound _ _ Hrun) as (Hok & _).
  assert (step_shape s size alignment s') as Hshape
    by (destruct Hcall; [eapply alloc_step_shape | eapply fit_step_shape];
        eauto).
  destruct Hshape as [Hs | (g & Hg & Hs)].
  - destruct (served_keeps _ _ _ _ Hv Hs) as (Hm & Ha & _ & Hn & _ & Hr).
    do 2 (split; [assumption |]). split; [auto |].
    intros p r Hp. destruct (Hr p r Hp) as (r' & ? & ? & ? & ? & ?). eauto.
  - destruct (extended_keeps _ _ Hok Hg)
      as (Ha & Hn & (b & Hm) & _ & _ & Hr).
    destruct Hs as [-> | Hs].
    + do 2 (split; [assumption |]). split; [eauto |].
      intros p r Hp. destruct (Hr p r Hp) as (r' & ? & ? & ? & ? & ?).
      exists r'. repeat split; auto. lia.
    + destruct (served_keeps _ _ _ _ Hv Hs)
        as (Hm' & Ha' & _ & Hn' & _ & Hr').
      split; [congruence |]. split; [congruence |].
      split; [right; exists b; congruence |].
      intros p r Hp. destruct (Hr p r Hp) as (r1 & H1 & ? & ? & ? & ?).
      destruct (Hr' p r1 H1) as (r2 & ? & ? & ? & ? & ?).
      exists r2. repeat split; auto; try congruence; lia.
Qed.

(** * Release *)

(** ** Every execution owns its blocks *)

Lemma overlap_sym a b : overlap a b = overlap b a.
Proof. unfold overlap. apply andb_comm. Qed.

Lemma overlap_self (b : block) : 0 < b.2 -> overlap b b = true.
Proof. intros H. unfold overlap. apply andb_true_iff. split; lia. Qed.

Lemma elem_of_rev (l : list Z) p : p ∈ rev l <-> p ∈ l.
Proof. rewrite !list_elem_of_In. symmetry. apply in_rev. Qed.

Lemma block_of_eq s s' p :
  first s' = first s -> arena s' = arena s ->
  (forall r, regions s !! p = Some r ->
     exists r', regions s' !! p = Some r' /\ capacity r' = capacity r) ->
  is_Some (regions s !! p) ->
  block_of s' p = block_of s p.
Proof.
  intros Hf Ha Hr [r Hp]. destruct (Hr r Hp) as (r' & Hp' & Hc).
  unfold block_of. now rewrite Hp, Hp', Hf, Ha, Hc.
Qed.

Lemma tidy_transport s s' l os0 :
  tidy s l os0 ->
  is_chain (regions s') (first s') l ->
  first s' = first s -> arena s' = arena s -> mappings s' = mappings s ->
  dom (regions s') = dom (regions s) ->
  (forall p r, regions s !! p = Some r ->
     exists r', regions s' !! p = Some r' /\ capacity r' = capacity r) ->
  tidy s' l os0.
Proof.
  intros [Hc Hnd Hdom Hmap Hbl Hap Hrest] Hc' Hf Ha Hm Hd Hr.
  assert (forall p, p ∈ l -> block_of s' p = block_of s p) as Hb.
  { intros p Hp. apply block_of_eq; auto. eapply is_chain_lookup; eauto. }
  constructor.
  - exact Hc'.
  - exact Hnd.
  - intros p Hp. apply Hdom. apply elem_of_dom. rewrite <- Hd.
    now apply elem_of_dom.
  - rewrite Hm, Hmap. f_equal. apply map_ext_in. intros p Hp.
    symmetry. apply Hb. now apply elem_of_rev, list_elem_of_In.
  - intros p Hp. rewrite (Hb p Hp). auto.
  - intros p q Hp Hq Hne. rewrite (Hb p Hp), (Hb q Hq). auto.
  - intros p b Hp Hbo. rewrite (Hb p Hp). auto.
Qed.

Lemma tidy_served s l os0 size alignment s' :
  valid_request size alignment = true ->
  tidy s l os0 -> served s size alignment s' -> tidy s' l os0.
Proof.
  intros Hv Ht Hs.
  destruct (served_keeps _ _ _ _ Hv Hs) as (Hm & Ha & _ & _ & Hd & Hr).
  destruct Hs as (p & r & Hp & Hroom & ->).
  eapply tidy_transport; eauto.
  - cbn. eapply is_chain_update; [exact Hp | reflexivity |].
    apply (tidy_chain _ _ _ Ht).
  - intros q x Hq. destruct (Hr q x Hq) as (r' & ? & ? & _). eauto.
Qed.

Lemma tidy_create os pick cap s :
  create_arena os pick cap = Ok s -> tidy s [first s] os.
Proof.
  intros Hc.
  destruct (create_arena_Ok _ _ _ _ Hc)
    as (mem & _ & Hmm & Hb & (q & Hq) & Hmap & Hlast & _ & Hreg).
  pose proof page_size_bounds as Hps.
  apply mmap_Some in Hmm as (_ & Hlen & Hpos & Hal & Hend & Hno).
  assert (block_of s (first s) = (arena s, mem)) as Hblock.
  { unfold block_of. rewrite Hreg, lookup_singleton_eq, Z.eqb_refl. cbn.
    f_equal. lia. }
  assert (forall p, p ∈ [first s] -> block_of s p = (arena s, mem)) as Hone
    by (intros p Hp; apply list_elem_of_singleton in Hp as ->; exact Hblock).
  constructor.
  - eapply chain_end; [rewrite Hreg; apply lookup_singleton_eq | reflexivity].
  - apply NoDup_singleton.
  - intros p [r Hp]. rewrite Hreg in Hp.
    apply lookup_singleton_Some in Hp as [<- _]. apply list_elem_of_here.
  - cbn. now rewrite Hblock, Hmap.
  - intros p Hp. rewrite (Hone p Hp). cbn.
    repeat split; try assumption; try lia.
    exists q. split; [| exact Hq].
    destruct (Z_lt_le_dec 0 q) as [? | Hq0]; [assumption |].
    assert (q * page_size <= 0 * page_size)
      by (apply Z.mul_le_mono_nonneg_r; lia). lia.
  - intros p p' Hp Hp' Hne.
    apply list_elem_of_singleton in Hp as ->.
    apply list_elem_of_singleton in Hp' as ->. contradiction.
  - intros p b Hp Hbo. rewrite (Hone p Hp). auto.
Qed.

Lemma tidy_last s l os0 :
  arena_ok s -> tidy s l os0 -> list.last l = Some (last s).
Proof.
  intros Hok Ht. destruct (ok_chain _ Hok) as (l' & Hc & _ & Hl).
  now rewrite (is_chain_unique _ _ _ _ (tidy_chain _ _ _ Ht) Hc).
Qed.

Lemma tidy_extended s l os0 g :
  arena_ok s -> tidy s l os0 -> extended s g ->
  tidy g (l ++ [last g]) os0.
Proof.
  intros Hok Ht (pick & cap & new & os' & h1 & lr & Hcr & Hl & ->).
  pose proof (tidy_last _ _ _ Hok Ht) as Hlast.
  destruct Ht as [Hc Hnd Hdom Hmap Hbl Hap Hrest].
  destruct (create_region_Ok _ _ _ _ _ _ _ Hcr)
    as (mem & _ & Hmm & Hb & (q & Hq) & -> & ->).
  pose proof (granted_block_fresh _ _ _ _ Hok Hmm) as Hfresh.
  pose proof page_size_bounds as Hps.
  apply mmap_Some in Hmm as (_ & Hlen & Hpos & Hal & Hend & Hno).
  assert (new <> last s) as Hne by congruence.
  assert (forall p, p ∈ l -> p <> new) as Hold
    by (intros p Hp ->; destruct (is_chain_lookup _ _ _ _ Hc Hp); congruence).
  assert (first s ∈ l) as Hfirst
    by (destruct (is_chain_head _ _ _ Hc) as [? ->]; apply list_elem_of_here).
  set (fresh := {| next := None; tail := 0;
                   capacity := mem - REGION_HEADER_SIZE; data := ∅ |}).
  set (g := grown s ((new, mem) :: mappings s) new lr
              (<[new := fresh]> (regions s))).
  assert (forall p, p ∈ l -> block_of g p = block_of s p) as Hbo.
  { intros p Hp. apply block_of_eq; [reflexivity | reflexivity | |
      eapply is_chain_lookup; eauto].
    intros r Hr. cbn. destruct (decide (last s = p)) as [<- | Hp'].
    - rewrite lookup_insert_eq. eexists. split; [reflexivity |].
      cbn. congruence.
    - rewrite lookup_insert_ne by done.
      rewrite lookup_insert_ne by (apply not_eq_sym, Hold, Hp). eauto. }
  assert (block_of g new = (new, mem)) as Hbn.
  { unfold block_of. cbn. rewrite lookup_insert_ne by done.
    rewrite lookup_insert_eq.
    change (first g) with (first s).
    assert ((new =? first s) = false) as ->
      by (apply Z.eqb_neq, not_eq_sym, Hold, Hfirst).
    unfold fresh. cbn. f_equal. unfold REGION_HEADER_SIZE. lia. }
  assert (forall p, p ∈ l -> block_of s p ∈ mappings s) as Hin.
  { intros p Hp. rewrite Hmap. apply elem_of_app. left.
    apply list_elem_of_In, in_map, list_elem_of_In. now apply elem_of_rev. }
  constructor.
  - change (first g) with (first s). change (last g) with new.
    eapply is_chain_snoc; eauto.
  - change (last g) with new. apply NoDup_app. split; [exact Hnd |].
    split; [| apply NoDup_singleton].
    intros p Hp Hp'. apply list_elem_of_singleton in Hp'.
    now apply (Hold p Hp).
  - change (last g) with new. intros p [r Hp]. cbn in Hp.
    apply elem_of_app.
    destruct (decide (p = new)) as [-> | Hpn];
      [right; apply list_elem_of_here | left].
    apply Hdom. destruct (decide (last s = p)) as [<- | Hp']; [eauto |].
    rewrite lookup_insert_ne in Hp by done.
    rewrite lookup_insert_ne in Hp by congruence. eauto.
  - change (last g) with new. rewrite rev_app_distr. cbn.
    rewrite Hbn, Hmap. do 2 f_equal. apply map_ext_in. intros p Hp.
    symmetry. apply Hbo. now apply elem_of_rev, list_elem_of_In.
  - change (last g) with new. intros p Hp.
    apply elem_of_app in Hp as [Hp | Hp].
    + rewrite (Hbo p Hp). auto.
    + apply list_elem_of_singleton in Hp as ->. rewrite Hbn. cbn.
      repeat split; try assumption; try lia.
      exists q. split; [| exact Hq].
      destruct (Z_lt_le_dec 0 q) as [? | Hq0]; [assumption |].
      assert (q * page_size <= 0 * page_size)
        by (apply Z.mul_le_mono_nonneg_r; lia). lia.
  - change (last g) with new. intros p p' Hp Hp' Hpp.
    apply elem_of_app in Hp as [Hp | Hp];
      apply elem_of_app in Hp' as [Hp' | Hp'];
      try (apply list_elem_of_singleton in Hp as ->);
      try (apply list_elem_of_singleton in Hp' as ->).
    + rewrite (Hbo p Hp), (Hbo p' Hp'). auto.
    + rewrite (Hbo p Hp), Hbn, overlap_sym. apply Hno, Hin, Hp.
    + rewrite (Hbo p' Hp'), Hbn. apply Hno, Hin, Hp'.
    + contradiction.
  - change (last g) with new. intros p b Hp Hb0.
    apply elem_of_app in Hp as [Hp | Hp].
    + rewrite (Hbo p Hp). auto.
    + apply list_elem_of_singleton in Hp as ->. rewrite Hbn.
      apply Hno. rewrite Hmap. apply elem_of_app. now right.
Qed.

Lemma run_tidy s log : run s log -> exists l os0, tidy s l os0.
Proof.
  induction 1 as [os pick cap s Hcap Hc
                 | s log cap Hr IH Hcap
                 | s log pick size alignment p s' Hr IH Hv Ha
                 | s log pick size alignment p s' Hr IH Hv Hf].
  - exists [first s], os. eapply tidy_create; eauto.
  - destruct IH as (l & os0 & Ht). exists l, os0.
    apply (tidy_transport s _ l os0 Ht);
      [exact (tidy_chain _ _ _ Ht) | reflexivity | reflexivity | reflexivity
      | reflexivity | intros p r Hp; eauto].
  - destruct IH as (l & os0 & Ht).
    destruct (run_sound _ _ Hr) as (Hok & _).
    destruct (alloc_step_shape _ _ _ _ _ _ Hok Hv Ha)
      as [Hs | (g & Hg & [-> | Hs])].
    + exists l, os0. eapply tidy_served; eauto.
    + eexists _, os0. eapply tidy_extended; eauto.
    + eexists _, os0. eapply tidy_served; [exact Hv | | exact Hs].
      eapply tidy_extended; eauto.
  - destruct IH as (l & os0 & Ht).
    destruct (run_sound _ _ Hr) as (Hok & _).
    destruct (fit_step_shape _ _ _ _ _ _ Hok Hv Hf)
      as [Hs | (g & Hg & [-> | Hs])].
    + exists l, os0. eapply tidy_served; eauto.
    + eexists _, os0. eapply tidy_extended; eauto.
    + eexists _, os0. eapply tidy_served; [exact Hv | | exact Hs].
      eapply tidy_extended; eauto.
Qed.

(** ** [munmap] on whole blocks *)

Lemma munmap_range_block p q :
  0 < q -> p mod page_size = 0 -> p + q * page_size <= 2 ^ SIZE_BITS ->
  munmap_range p (q * page_size) = Some (p, q * page_size).
Proof.
  intros Hq Hal Hend. pose proof page_size_bounds as Hps.
  unfold munmap_range. cbv zeta.
  assert (round_up (q * page_size) page_size = q * page_size) as ->.
  { unfold round_up.
    replace (q * page_size + page_size - 1)
      with (q * page_size + (page_size - 1)) by lia.
    rewrite Z.div_add_l by lia. rewrite (Z.div_small (page_size - 1)) by lia.
    lia. }
  assert (0 < q * page_size) by (apply Z.mul_pos_pos; lia).
  assert ((q * page_size >? 0) && (p mod page_size =? 0)
          && (p + q * page_size <=? 2 ^ SIZE_BITS) = true) as ->;
    [| reflexivity].
  repeat (apply andb_true_iff; split); lia.
Qed.

Lemma cut_self (u : block) : 0 < u.2 -> cut u u = [].
Proof.
  intros H. unfold cut. rewrite (overlap_self u H).
  destruct (u.1 <? u.1) eqn:E1; [lia |].
  destruct (u.1 + u.2 <? u.1 + u.2) eqn:E2; [lia |]. reflexivity.
Qed.

Lemma flat_map_cut_apart u (xs : list block) :
  (forall b, b ∈ xs -> overlap u b = false) -> flat_map (cut u) xs = xs.
Proof.
  induction xs as [| b xs IH]; intros H; [reflexivity |]. cbn.
  rewrite IH by (intros c Hc; apply H, list_elem_of_further, Hc).
  unfold cut. now rewrite (H b (list_elem_of_here _ _)).
Qed.

(** Unmapping one block of a list whose other blocks do not overlap it
    takes exactly that block away. *)
Lemma munmap_block xs ys p q :
  0 < q -> p mod page_size = 0 -> p + q * page_size <= 2 ^ SIZE_BITS ->
  (forall b, b ∈ xs -> overlap (p, q * page_size) b = false) ->
  (forall b, b ∈ ys -> overlap (p, q * page_size) b = false) ->
  munmap (xs ++ (p, q * page_size) :: ys) p (q * page_size) = xs ++ ys.
Proof.
  intros Hq Hal Hend Hxs Hys. unfold munmap.
  rewrite munmap_range_block by assumption.
  rewrite flat_map_app. cbn.
  rewrite !flat_map_cut_apart by assumption.
  rewrite cut_self; [reflexivity |]. cbn.
  pose proof page_size_bounds. apply Z.mul_pos_pos; lia.
Qed.

Lemma lookup_kept X (h : gmap Z Region) p r :
  kept X h !! p = Some r <-> h !! p = Some r /\ p ∈ X.
Proof. unfold kept. now rewrite map_lookup_filter_Some. Qed.

(** ** [delete_arena] *)

Lemma delete_loop_null fuel os h released :
  delete_loop fuel os h None released = Ok (os, h, released).
Proof. destruct fuel; reflexivity. Qed.

(** More iterations change no outcome but [Loops]. *)
Lemma delete_loop_more_fuel fuel :
  forall os h region released o fuel',
  delete_loop fuel os h region released = o -> o <> Stop Loops ->
  (fuel <= fuel')%nat ->
  delete_loop fuel' os h region released = o.
Proof.
  induction fuel as [| fuel IH]; intros os h region released o fuel' Hd Hn Hle.
  - destruct region as [p |]; cbn in Hd; [congruence |].
    subst o. apply delete_loop_null.
  - destruct fuel' as [| fuel']; [lia |].
    destruct region as [p |]; [| exact Hd]. cbn [delete_loop] in *.
    destruct (h !! p) as [r |]; [| exact Hd].
    destruct (negb (tail r <=? capacity r)); [exact Hd |].
    destruct (free_region os h p) as [[[os' h'] b] | e]; cbn in *;
      [| exact Hd].
    eapply IH; eauto. lia.
Qed.

Section Delete.

Variables (s : State) (l : list Z) (os0 : list block).
Hypothesis Hok : arena_ok s.
Hypothesis Htidy : tidy s l os0.

Lemma tidy_region_block p r :
  p ∈ l -> p <> first s -> regions s !! p = Some r ->
  block_of s p = (p, capacity r + REGION_HEADER_SIZE) /\
  size_t (capacity r + REGION_HEADER_SIZE) = capacity r + REGION_HEADER_SIZE /\
  exists q, 0 < q /\ capacity r + REGION_HEADER_SIZE = q * page_size /\
    p mod page_size = 0 /\ p + q * page_size <= 2 ^ SIZE_BITS.
Proof.
  intros Hp Hne Hr.
  assert (block_of s p = (p, capacity r + REGION_HEADER_SIZE)) as Hb.
  { unfold block_of. rewrite Hr.
    assert ((p =? first s) = false) as -> by now apply Z.eqb_neq.
    reflexivity. }
  destruct (tidy_blocks _ _ _ Htidy p Hp) as (H0 & Hal & (q & Hq & Hlen) & He).
  rewrite Hb in *. cbn in *. pose proof page_size_bounds as Hps.
  assert (0 < q * page_size) by (apply Z.mul_pos_pos; lia).
  split; [reflexivity |]. split; [apply size_t_id; size_lia |].
  exists q. rewrite <- Hlen. auto.
Qed.

Lemma tidy_first_in : exists rest, l = first s :: rest.
Proof. apply (is_chain_head _ _ _ (tidy_chain _ _ _ Htidy)). Qed.

(** The loop of [delete_arena] on the chain: it releases the block of
    each Region in chain order and leaves the first region and the
    mappings the arena does not own. *)
Lemma delete_loop_chain todo :
  forall fuel done p0 released,
  l = first s :: done ++ todo ->
  match todo with
  | [] => p0 = None
  | p :: _ => p0 = Some p /\ is_chain (regions s) p todo
  end ->
  (length todo <= fuel)%nat ->
  delete_loop fuel
    (map (block_of s) (rev todo) ++ block_of s (first s) :: os0)
    (kept (first s :: todo) (regions s)) p0 released
  = Ok (block_of s (first s) :: os0, kept [first s] (regions s),
        released ++ map (block_of s) todo).
Proof.
  induction todo as [| p todo IH]; intros fuel done p0 released Hl Hp0 Hfuel.
  - subst p0. rewrite delete_loop_null. cbn. now rewrite app_nil_r.
  - destruct Hp0 as [-> Hc].
    destruct fuel as [| fuel]; [cbn in Hfuel; lia |].
    pose proof (tidy_nodup _ _ _ Htidy) as Hnd. rewrite Hl in Hnd.
    apply NoDup_cons in Hnd as [Hfirst Hnd].
    apply NoDup_app in Hnd as (_ & Hdt & Hndt).
    apply NoDup_cons in Hndt as [Hpt _].
    assert (p ∈ l) as Hpl
      by (rewrite Hl; apply list_elem_of_further, elem_of_app; right;
          apply list_elem_of_here).
    assert (p <> first s) as Hpf
      by (intros ->; apply Hfirst, elem_of_app; right;
          apply list_elem_of_here).
    assert (exists r, regions s !! p = Some r /\
              next r = match todo with [] => None | q :: _ => Some q end /\
              match todo with
              | [] => True
              | q :: _ => is_chain (regions s) q todo
              end) as (r & Hr & Hnext & Hc').
    { inversion Hc as [y ry Hy Hny | y ry q l' Hy Hny Hcq]; subst.
      - exists ry. auto.
      - destruct (is_chain_head _ _ _ Hcq) as [l'' ->]. exists ry. auto. }
    destruct (tidy_region_block p r Hpl Hpf Hr)
      as (Hb & Hsz & q & Hq & Hlen & Hal & Hend).
    destruct (ok_regions _ Hok _ _ Hr) as [Htl _].
    cbn [delete_loop].
    rewrite (proj2 (lookup_kept _ _ p r))
      by (split; [exact Hr | apply list_elem_of_further, list_elem_of_here]).
    assert (negb (tail r <=? capacity r) = false) as ->
      by (apply negb_false_iff; lia).
    unfold free_region.
    rewrite (proj2 (lookup_kept _ _ p r))
      by (split; [exact Hr | apply list_elem_of_further, list_elem_of_here]).
    cbv zeta. rewrite Hsz. unfold free_mem. cbn [mbind outcome_bind].
    assert (munmap (map (block_of s) (rev (p :: todo))
                    ++ block_of s (first s) :: os0)
                   p (capacity r + REGION_HEADER_SIZE)
            = map (block_of s) (rev todo) ++ block_of s (first s) :: os0)
      as ->.
    { cbn [rev]. rewrite map_app. cbn [map]. rewrite <- app_assoc. cbn [app].
      rewrite Hb, Hlen. apply munmap_block; try assumption.
      - intros b Hbin. rewrite <- Hlen, <- Hb.
        apply list_elem_of_In, in_map_iff in Hbin as (x & <- & Hx).
        apply list_elem_of_In in Hx. apply (proj1 (elem_of_rev _ _)) in Hx.
        apply (tidy_apart _ _ _ Htidy);
          [exact Hpl | | intros ->; contradiction].
        rewrite Hl. apply list_elem_of_further, elem_of_app. right.
        now apply list_elem_of_further.
      - intros b Hbin. rewrite <- Hlen, <- Hb.
        apply elem_of_cons in Hbin as [-> | Hbin].
        + apply (tidy_apart _ _ _ Htidy); [exact Hpl | | exact Hpf].
          rewrite Hl. apply list_elem_of_here.
        + now apply (tidy_rest _ _ _ Htidy). }
    rewrite Hlen, munmap_range_block by assumption. rewrite <- Hlen.
    assert (filter (fun kv : Z * Region =>
                      overlap (kv.1, REGION_HEADER_SIZE)
                              (p, capacity r + REGION_HEADER_SIZE) = false)
                   (kept (first s :: p :: todo) (regions s))
            = kept (first s :: todo) (regions s)) as ->.
    { unfold kept at 2. apply map_filter_strong_ext. intros x rx. cbn.
      rewrite lookup_kept. split.
      - intros (Hov & Hx & Hin). split; [| exact Hx].
        apply elem_of_cons in Hin as [-> | Hin]; [apply list_elem_of_here |].
        apply elem_of_cons in Hin as [-> | Hin];
          [| now apply list_elem_of_further].
        exfalso. unfold overlap in Hov. cbn in Hov.
        destruct (ok_regions _ Hok _ _ Hr).
        apply andb_false_iff in Hov as [Hov | Hov]; size_lia.
      - intros (Hin & Hx). split; [| split; [exact Hx |]].
        + assert (x <> p) as Hxp.
          { intros ->. apply elem_of_cons in Hin as [-> | Hin];
              [now apply Hpf | now apply Hpt]. }
          destruct (ok_regions _ Hok _ _ Hr) as [? ?].
          destruct (ok_regions _ Hok _ _ Hx) as [? ?].
          unfold overlap. cbn. apply andb_false_iff.
          destruct (ok_apart _ Hok _ _ _ _ Hxp Hx Hr) as [Hap | Hap];
            unfold region_end, data_addr, REGION_HEADER_SIZE in *; lia.
        + apply elem_of_cons in Hin as [-> | Hin];
            [apply list_elem_of_here |].
          now do 2 apply list_elem_of_further. }
    rewrite Hnext, (IH fuel (done ++ [p])).
    + cbn [map]. rewrite <- app_assoc, Hb. reflexivity.
    + rewrite <- app_assoc. exact Hl.
    + destruct todo; auto.
    + cbn in Hfuel. lia.
Qed.

End Delete.

Lemma tidy_blocks_distinct s l os0 :
  tidy s l os0 -> NoDup (map (block_of s) l).
Proof.
  intros Ht. pose proof (tidy_nodup _ _ _ Ht) as Hnd.
  assert (forall p q, p ∈ l -> q ∈ l -> block_of s p = block_of s q -> p = q)
    as Hinj.
  { intros p q Hp Hq Heq. destruct (decide (p = q)) as [| Hne]; [assumption |].
    pose proof (tidy_apart _ _ _ Ht p q Hp Hq Hne) as Hov.
    destruct (tidy_blocks _ _ _ Ht p Hp) as (_ & _ & (k & Hk & Hlen) & _).
    pose proof page_size_bounds.
    rewrite <- Heq, overlap_self in Hov; [discriminate |].
    rewrite Hlen. apply Z.mul_pos_pos; lia. }
  clear Ht. induction l as [| p l IH]; cbn; [constructor |].
  apply NoDup_cons in Hnd as [Hp Hnd]. apply NoDup_cons. split.
  - intros Hin. apply list_elem_of_In, in_map_iff in Hin as (q & Heq & Hq).
    apply list_elem_of_In in Hq.
    assert (q = p)
      by (apply Hinj; [now apply list_elem_of_further
                      | apply list_elem_of_here | exact Heq]).
    subst q. contradiction.
  - apply IH; [exact Hnd |]. intros x y Hx Hy.
    apply Hinj; now apply list_elem_of_further.
Qed.

Lemma delete_arena_tidy s l os0 :
  arena_ok s -> tidy s l os0 ->
  exists rest,
    l = first s :: rest /\
    delete_arena s =
      Ok (os0, ∅, map (block_of s) rest ++ [block_of s (first s)]).
Proof.
  intros Hok Ht. destruct (tidy_first_in s l os0 Ht) as [rest Hl].
  exists rest. split; [exact Hl |].
  pose proof (tidy_chain _ _ _ Ht) as Hc. rewrite Hl in Hc.
  assert (first s ∈ l) as Hfl by (rewrite Hl; apply list_elem_of_here).
  assert (exists f, regions s !! first s = Some f /\
            match rest with
            | [] => next f = None
            | p :: _ => next f = Some p /\ is_chain (regions s) p rest
            end) as (f & Hf & Hnext).
  { inversion Hc as [y ry Hy Hny | y ry q l' Hy Hny Hcq]; subst.
    - exists ry. auto.
    - destruct (is_chain_head _ _ _ Hcq) as [l'' ->]. exists ry. auto. }
  assert (kept (first s :: rest) (regions s) = regions s) as Hall.
  { unfold kept. apply map_filter_id. intros p r Hp. cbn. rewrite <- Hl.
    apply (tidy_dom _ _ _ Ht). eauto. }
  assert (length rest <= S (base.size (regions s))
                         * S (base.size (regions s)))%nat as Hfuel.
  { pose proof (chain_length_le _ _ _ (tidy_chain _ _ _ Ht)
                  (tidy_nodup _ _ _ Ht)) as Hlen.
    rewrite Hl in Hlen. cbn in Hlen. nia. }
  unfold delete_arena. rewrite Hf. cbv zeta.
  rewrite (tidy_mappings _ _ _ Ht), Hl. cbn [rev]. rewrite map_app.
  cbn [map]. rewrite <- app_assoc. cbn [app].
  pose proof (delete_loop_chain s l os0 Hok Ht rest _ [] (next f) [] Hl
                ltac:(destruct rest; [exact Hnext | destruct Hnext; auto])
                Hfuel) as Hloop.
  rewrite Hall in Hloop. rewrite Hloop.
  cbn [mbind outcome_bind app].
  rewrite (proj2 (lookup_kept _ _ (first s) f))
    by (split; [exact Hf | apply list_elem_of_here]).
  destruct (ok_regions _ Hok _ _ Hf) as [Htl Hcap].
  assert (negb (tail f <=? capacity f) = false) as ->
    by (apply negb_false_iff; lia).
  unfold free_arena. change (arena s + ARENA_FIRST_OFFSET) with (first s).
  rewrite (proj2 (lookup_kept _ _ (first s) f))
    by (split; [exact Hf | apply list_elem_of_here]).
  cbv zeta.
  assert (block_of s (first s) = (arena s, capacity f + ARENA_HEADER_SIZE))
    as Hb by (unfold block_of; now rewrite Hf, Z.eqb_refl).
  destruct (tidy_blocks _ _ _ Ht _ Hfl) as (H0 & Hal & (q & Hq & Hlen) & He).
  rewrite Hb in H0, Hal, Hlen, He. cbn in H0, Hal, Hlen, He.
  pose proof page_size_bounds as Hps.
  assert (0 < q * page_size) by (apply Z.mul_pos_pos; lia).
  rewrite (size_t_id (capacity f + ARENA_HEADER_SIZE)) by size_lia.
  unfold free_mem. cbn [mbind outcome_bind].
  rewrite Hb, Hlen.
  assert (arena s + q * page_size <= 2 ^ SIZE_BITS) as He'
    by (rewrite <- Hlen; exact He).
  assert (munmap (@cons block (arena s, q * page_size) os0) (arena s)
                 (q * page_size) = os0) as ->.
  { apply (munmap_block [] os0 (arena s) q Hq Hal He').
    - intros b Hbin. apply elem_of_nil in Hbin as [].
    - intros b Hbin. rewrite <- Hlen, <- Hb.
      now apply (tidy_rest _ _ _ Ht). }
  rewrite munmap_range_block by assumption.
  cbn [app]. do 3 f_equal.
  apply map_empty. intros p. apply map_lookup_filter_None. right.
  intros r Hr. apply lookup_kept in Hr as [Hr Hin].
  apply list_elem_of_singleton in Hin as ->. cbn.
  rewrite <- Hlen. unfold overlap, first. cbn.
  intros Hov. apply andb_false_iff in Hov as [Hov | Hov]; size_lia.
Qed.

(** X19: [delete_arena] on an execution returns: no assertion fails and
    no loop runs on.  It hands to [munmap] one block for each Region of
    the chain, in chain order and the arena's own block last, all of them
    distinct live mappings; afterwards no Region struct is left and the
    live mappings are exactly the ones the arena did not own. *)
Theorem delete_arena_releases_every_block_once s log :
  run s log ->
  exists l rest os0,
    is_chain (regions s) (first s) l /\ l = first s :: rest /\
    mappings s = map (block_of s) (rev l) ++ os0 /\
    NoDup (map (block_of s) l) /\
    (forall p, p ∈ l -> block_of s p ∉ os0) /\
    delete_arena s =
      Ok (os0, ∅, map (block_of s) rest ++ [block_of s (first s)]).
Proof.
  intros Hrun. destruct (run_sound _ _ Hrun) as (Hok & _).
  destruct (run_tidy _ _ Hrun) as (l & os0 & Ht).
  destruct (delete_arena_tidy _ _ _ Hok Ht) as (rest & Hl & Hd).
  exists l, rest, os0.
  split; [apply (tidy_chain _ _ _ Ht) |]. split; [exact Hl |].
  split; [apply (tidy_mappings _ _ _ Ht) |].
  split; [eapply tidy_blocks_distinct; eauto |].
  split; [| exact Hd].
  intros p Hp Hin. pose proof (tidy_rest _ _ _ Ht p _ Hp Hin) as Hov.
  destruct (tidy_blocks _ _ _ Ht p Hp) as (_ & _ & (k & Hk & Hlen) & _).
  pose proof page_size_bounds.
  rewrite overlap_self in Hov; [discriminate |].
  rewrite Hlen. apply Z.mul_pos_pos; lia.
Qed.

(** * The typed entry points *)

(** X20: [arena_alloc] and [arena_fit] with a count of zero elements, or
    with a count whose product with the element size is a multiple of
    [2 ^ 64], ask for zero bytes and trip the assertion of
    [region_alloc]. *)
Theorem typed_request_of_zero_bytes_aborts s pick n ty :
  size_t (n * sizeof ty) = 0 ->
  arena_alloc s pick n ty = Stop AssertFailed /\
  arena_fit s pick n ty = Stop AssertFailed.
Proof.
  intros Hz. unfold arena_alloc, arena_fit. rewrite Hz.
  split; [unfold _arena_alloc | unfold _arena_fit; cbn [fit_loop]];
    unfold region_alloc; reflexivity.
Qed.

(** X21: for an element type of alignment 1, 2, 4 or 8 whose size is a
    multiple of its alignment, and a count whose product with the size
    does not wrap, the array that [arena_alloc] or [arena_fit] returns in
    an execution has every element aligned and inside the used part of
    one Region's payload. *)
Theorem typed_array_elements_aligned s log pick n ty k p s' :
  run s log ->
  0 <= k <= 3 -> alignof ty = 2 ^ k ->
  0 < sizeof ty -> sizeof ty mod alignof ty = 0 ->
  0 < n -> n * sizeof ty <= SIZE_MAX ->
  arena_alloc s pick n ty = Ok (Some p, s') \/
  arena_fit s pick n ty = Ok (Some p, s') ->
  forall i, 0 <= i < n ->
    (p + i * sizeof ty) mod alignof ty = 0 /\
    exists q r, regions s' !! q = Some r /\
      data_addr q <= p + i * sizeof ty /\
      p + (i + 1) * sizeof ty <= data_addr q + tail r.
Proof.
  intros Hrun Hk Hal Hsz Hmod Hn Hfit Hcall i Hi.
  assert (0 < n * sizeof ty) as Hpos by (apply Z.mul_pos_pos; lia).
  assert (valid_request (n * sizeof ty) (alignof ty) = true) as Hv.
  { apply valid_request_iff. split; [lia |]. exists k. split; [lia | exact Hal]. }
  unfold arena_alloc, arena_fit in Hcall.
  rewrite size_t_id in Hcall by size_lia.
  assert (run s' (mkAllocation p (n * sizeof ty) (alignof ty) :: log))
    as Hrun'.
  { destruct Hcall as [Ha | Hf].
    - exact (run_alloc _ _ _ _ _ (Some p) _ Hrun Hv Ha).
    - exact (run_fit _ _ _ _ _ (Some p) _ Hrun Hv Hf). }
  set (a := mkAllocation p (n * sizeof ty) (alignof ty)) in *.
  assert (a ∈ a :: log) as Hin by apply list_elem_of_here.
  destruct (returned_pointer_residue _ _ a Hrun' Hin) as [Hres _].
  destruct (run_sound _ _ Hrun') as (_ & Hlog & _).
  destruct (Hlog a Hin) as (_ & q & r & Hq & Hlo & Hhi & _).
  cbn in Hres, Hlo, Hhi.
  assert (2 ^ k <= 2 ^ 3) by (apply Z.pow_le_mono_r; lia).
  assert (0 < 2 ^ k) by (apply Z.pow_pos_nonneg; lia).
  specialize (Hres ltac:(rewrite Hal; change (2 ^ 3) with 8 in *; lia)).
  assert (0 <= i * sizeof ty) by (apply Z.mul_nonneg_nonneg; lia).
  assert ((i + 1) * sizeof ty <= n * sizeof ty)
    by (apply Z.mul_le_mono_nonneg_r; lia).
  split.
  - rewrite Hal in *.
    apply Z.mod_divide in Hres; [| lia]. apply Z.mod_divide in Hmod; [| lia].
    apply Z.mod_divide; [lia |].
    apply Z.divide_add_r; [exact Hres |]. now apply Z.divide_mul_r.
  - exists q, r. split; [exact Hq |]. split; lia.
Qed.

(** * Further invariants of executions *)

(** X22: in an execution every Region but the first starts a block of
    whole pages that holds its header and payload, and the arena starts
    the block of whole pages that holds its header and the first
    region. *)
Theorem regions_fill_whole_pages s log p r :
  run s log -> regions s !! p = Some r ->
  (p = first s ->
   arena s mod page_size = 0 /\
   (capacity r + ARENA_HEADER_SIZE) mod page_size = 0 /\
   (arena s, capacity r + ARENA_HEADER_SIZE) ∈ mappings s) /\
  (p <> first s ->
   p mod page_size = 0 /\
   (capacity r + REGION_HEADER_SIZE) mod page_size = 0 /\
   (p, capacity r + REGION_HEADER_SIZE) ∈ mappings s).
Proof.
  intros Hrun Hp. destruct (run_tidy _ _ Hrun) as (l & os0 & Ht).
  assert (p ∈ l) as Hin by (apply (tidy_dom _ _ _ Ht); eauto).
  destruct (tidy_blocks _ _ _ Ht p Hin) as (_ & Hal & (q & _ & Hlen) & _).
  assert (block_of s p ∈ mappings s) as Hm.
  { rewrite (tidy_mappings _ _ _ Ht). apply elem_of_app. left.
    apply list_elem_of_In, in_map, list_elem_of_In. now apply elem_of_rev. }
  pose proof page_size_bounds as Hps.
  unfold block_of in Hal, Hlen, Hm. rewrite Hp in Hal, Hlen, Hm.
  split; intros Hf.
  - apply Z.eqb_eq in Hf. rewrite Hf in Hal, Hlen, Hm. cbn in Hal, Hlen.
    split; [exact Hal |]. split; [| exact Hm].
    rewrite Hlen. apply Z.mod_mul. lia.
  - apply Z.eqb_neq in Hf. rewrite Hf in Hal, Hlen, Hm. cbn in Hal, Hlen.
    split; [exact Hal |]. split; [| exact Hm].
    rewrite Hlen. apply Z.mod_mul. lia.
Qed.

(** X23: in an execution every Region struct is linked into the chain
    that starts at the embedded first region: the walks of [_arena_fit]
    and [delete_arena] reach all of them. *)
Theorem every_region_is_on_the_chain s log l p :
  run s log -> is_chain (regions s) (first s) l ->
  is_Some (regions s !! p) <-> p ∈ l.
Proof.
  intros Hrun Hc. destruct (run_tidy _ _ Hrun) as (l' & os0 & Ht).
  rewrite (is_chain_unique _ _ _ _ Hc (tidy_chain _ _ _ Ht)).
  split; [apply (tidy_dom _ _ _ Ht) |].
  intros Hp. eapply is_chain_lookup; [apply (tidy_chain _ _ _ Ht) | exact Hp].
Qed.

(** X24: in an execution a valid call of [_arena_alloc] or [_arena_fit]
    returns [nullptr] only if [max(size, new_region_capacity)] with the
    Region header, rounded up to a page, exceeds [SIZE_MAX]. *)
Theorem null_only_on_wrap s log pick size alignment s' :
  run s log -> valid_request size alignment = true ->
  in_size_t (new_region_capacity s) ->
  _arena_alloc s pick size alignment = Ok (None, s') \/
  _arena_fit s pick size alignment = Ok (None, s') ->
  SIZE_MAX <
    max size (new_region_capacity s) + REGION_HEADER_SIZE + (page_size - 1).
Proof.
  intros Hrun Hv Hnrc Hcall. destruct (run_sound _ _ Hrun) as (Hok & _).
  destruct (Z_lt_le_dec SIZE_MAX
              (max size (new_region_capacity s) + REGION_HEADER_SIZE
               + (page_size - 1))) as [Hw | Hfit]; [exact Hw |].
  exfalso.
  assert (new_region_alloc s pick size alignment = Ok (None, s')) as Hn.
  { destruct Hcall as [Ha | Hf].
    - destruct (last_in_heap _ Hok) as (l & Hl & _).
      rewrite (arena_alloc_eq _ _ _ _ l Hok Hv Hl) in Ha.
      destruct (has_room l size alignment); [discriminate | exact Ha].
    - destruct (ok_chain _ Hok) as (l & Hc & _ & _).
      destruct (first_fit_split (regions s) size alignment l
                  (fun q => is_chain_lookup _ _ _ q Hc))
        as [Hall | (l1 & p & r & l2 & Hl & Hall & Hp & Hroom)].
      + now rewrite (arena_fit_roomless _ _ _ _ l Hok Hv Hc Hall) in Hf.
      + rewrite (arena_fit_first_fit _ _ _ _ l l1 p r l2 Hok Hv Hc Hl
                   Hall Hp Hroom) in Hf. discriminate. }
  destruct (growth_serves _ _ _ _ _ _ Hok Hv Hnrc Hfit Hn)
    as (_ & _ & _ & _ & _ & _ & _ & Hres & _).
  discriminate.
Qed.

End Arena.

(** * Concrete executions on 4 KiB pages *)

Lemma PAGE_SHIFT_range : 6 <= PAGE_SHIFT < 64.
Proof. unfold PAGE_SHIFT. lia. Qed.

Example demo0_created :
  create_arena PAGE_SHIFT [] (Some 4096) 64 = Ok demo0.
Proof. vm_compute. reflexivity. Qed.

Example demo1_allocated :
  _arena_alloc PAGE_SHIFT demo0 None 4051 1 = Ok (Some 4136, demo1).
Proof. vm_compute. reflexivity. Qed.

Example demo2_allocated :
  _arena_alloc PAGE_SHIFT demo1 (Some 8192) 4022 1 = Ok (Some 8216, demo2).
Proof. vm_compute. reflexivity. Qed.

Lemma demo2_run : run PAGE_SHIFT demo2 demo_log2.
Proof.
  apply (run_alloc PAGE_SHIFT demo1 demo_log1 (Some 8192) 4022 1
           (Some 8216) demo2); [| reflexivity | exact demo2_allocated].
  apply (run_alloc PAGE_SHIFT demo0 [] None 4051 1 (Some 4136) demo1);
    [| reflexivity | exact demo1_allocated].
  apply (run_create PAGE_SHIFT [] (Some 4096) 64 demo0);
    [| exact demo0_created].
  unfold in_size_t, SIZE_MAX, SIZE_BITS. lia.
Qed.

Lemma demo2_ok : arena_ok demo2.
Proof. exact (proj1 (run_sound _ PAGE_SHIFT_range _ _ demo2_run)). Qed.

Lemma demo2_chain : is_chain (regions demo2) (first demo2) [4112; 8192].
Proof.
  eapply chain_link; [reflexivity | reflexivity |].
  eapply chain_end; reflexivity.
Qed.

(** Scenario C of the specification: the first Region has 5 bytes free,
    the second 50; [fit(10, 1)] is served from the second and no third
    Region appears. *)
Example scenario_C :
  exists s',
    _arena_fit PAGE_SHIFT demo2 None 10 1 = Ok (Some 12238, s') /\
    data_addr 8192 <= 12238 /\ 12238 + 10 <= data_addr 8192 + 4072 /\
    dom (regions s') = dom (regions demo2) /\ last s' = 8192.
Proof.
  eexists. split; [vm_compute; reflexivity |].
  repeat split; try (vm_compute; congruence).
Qed.

Example demo3_grown :
  new_region_alloc PAGE_SHIFT (set_region_capacity demo2 128)
                   (Some 16384) 100 1 = Ok (Some 16408, demo3).
Proof. vm_compute. reflexivity. Qed.

Example wide0_created :
  create_arena PAGE_SHIFT [] (Some 4096) 4066 = Ok wide0.
Proof. vm_compute. reflexivity. Qed.

Example wide1_grown :
  new_region_alloc PAGE_SHIFT wide0 (Some 12288) 10 1
    = Ok (Some 12312, wide1).
Proof. vm_compute. reflexivity. Qed.

(** ** The claims at concrete inputs *)

Lemma region_alloc_algorithm_witness :
  regions demo0 !! 4112 = Some (empty_region 4056) /\
  region_ok (empty_region 4056) /\
  valid_request 10 8 = true /\
  region_alloc (regions demo0) 4112 10 8 =
    Ok (Some (data_addr 4112 + 0),
        <[4112 := set_tail (empty_region 4056) (0 + 10)]> (regions demo0)).
Proof.
  assert (region_ok (empty_region 4056)) as Hr
    by (unfold region_ok, SIZE_MAX, SIZE_BITS, REGION_HEADER_SIZE; cbn; lia).
  split; [reflexivity |]. split; [exact Hr |]. split; [reflexivity |].
  exact (region_alloc_algorithm (regions demo0) 4112 (empty_region 4056)
           10 8 eq_refl Hr eq_refl).
Defined.

Lemma region_alloc_failure_atomic_witness :
  valid_request 10 1 = true /\
  regions demo1 !! 4112 = Some (set_tail (empty_region 4056) 4051) /\
  region_alloc (regions demo1) 4112 10 1 = Ok (None, regions demo1) /\
  exists r', regions demo1 !! 4112 = Some r' /\ tail r' = 4051 /\
    capacity r' = 4056 /\ next r' = None /\ data r' = ∅.
Proof.
  split; [reflexivity |]. split; [reflexivity |]. split; [reflexivity |].
  exact (proj2 (region_alloc_failure_atomic (regions demo1) 4112
                  (set_tail (empty_region 4056) 4051) 10 1 (regions demo1)
                  eq_refl eq_refl eq_refl)).
Defined.

Lemma tail_le_capacity_witness :
  run PAGE_SHIFT demo2 demo_log2 /\
  regions demo2 !! 8192 = Some (set_tail (empty_region 4072) 4022) /\
  0 <= 4022 <= 4072.
Proof.
  split; [exact demo2_run |]. split; [reflexivity |].
  exact (tail_le_capacity PAGE_SHIFT PAGE_SHIFT_range demo2 demo_log2 8192
           (set_tail (empty_region 4072) 4022) demo2_run eq_refl).
Defined.

Lemma chain_acyclic_last_final_witness :
  run PAGE_SHIFT demo2 demo_log2 /\
  exists l,
    is_chain (regions demo2) (first demo2) l /\ NoDup l /\
    list.last l = Some (last demo2) /\
    forall p r, p ∈ l -> regions demo2 !! p = Some r ->
      (next r = None <-> p = last demo2).
Proof.
  split; [exact demo2_run |].
  exact (chain_acyclic_last_final PAGE_SHIFT PAGE_SHIFT_range demo2
           demo_log2 demo2_run).
Defined.

Lemma set_region_capacity_frame_witness :
  arena_ok demo2 /\ valid_request 100 1 = true /\
  new_region_capacity (set_region_capacity demo2 128) = 128 /\
  regions (set_region_capacity demo2 128) = regions demo2 /\
  last (set_region_capacity demo2 128) = last demo2 /\
  exists r,
    regions demo3 !! last demo3 = Some r /\
    regions demo2 !! last demo3 = None /\
    capacity r =
      align_to_page PAGE_SHIFT (size_t (max 100 128 + REGION_HEADER_SIZE))
      - REGION_HEADER_SIZE.
Proof.
  pose proof (set_region_capacity_frame PAGE_SHIFT PAGE_SHIFT_range demo2 128)
    as [(H1 & H2 & H3 & _) Hgrow].
  split; [exact demo2_ok |]. split; [reflexivity |].
  do 3 (split; [assumption |]).
  exact (Hgrow (Some 16384) 100 1 (Some 16408) demo3 demo2_ok eq_refl
           demo3_grown).
Defined.

Lemma create_keeps_requested_capacity_witness :
  create_arena PAGE_SHIFT [] (Some 4096) 4066 = Ok wide0 /\
  new_region_capacity wide0 = 4066 /\
  valid_request 10 1 = true /\
  exists r,
    regions wide1 !! last wide1 = Some r /\ last wide1 <> first wide0 /\
    capacity r =
      align_to_page PAGE_SHIFT (size_t (max 10 4066 + REGION_HEADER_SIZE))
      - REGION_HEADER_SIZE.
Proof.
  pose proof (create_keeps_requested_capacity PAGE_SHIFT PAGE_SHIFT_range
                [] (Some 4096) 4066 wide0 wide0_created) as [H1 Hgrow].
  split; [exact wide0_created |]. split; [exact H1 |].
  split; [reflexivity |].
  exact (Hgrow (Some 12288) 10 1 (Some 12312) wide1 eq_refl wide1_grown).
Defined.

Lemma fit_prefers_first_region_with_room_witness :
  arena_ok demo2 /\ valid_request 5 1 = true /\
  is_chain (regions demo2) (first demo2) [4112; 8192] /\
  has_room (set_next (set_tail (empty_region 4056) 4051) (Some 8192)) 5 1
    = true /\
  has_room (set_tail (empty_region 4072) 4022) 5 1 = true /\
  exists s',
    _arena_fit PAGE_SHIFT demo2 None 5 1 =
      Ok (Some (data_addr 4112 + round_up 4051 1), s') /\
    mappings s' = mappings demo2 /\ last s' = last demo2 /\
    dom (regions s') = dom (regions demo2).
Proof.
  split; [exact demo2_ok |]. split; [reflexivity |].
  split; [exact demo2_chain |]. do 2 (split; [reflexivity |]).
  destruct (fit_prefers_first_region_with_room PAGE_SHIFT demo2 None 5 1
              [4112; 8192] [] 4112
              (set_next (set_tail (empty_region 4056) 4051) (Some 8192))
              [8192] demo2_ok eq_refl demo2_chain eq_refl
              ltac:(constructor) eq_refl eq_refl)
    as (s' & Hfit & _ & _ & Hm & Hl & Hd & _).
  exists s'. auto.
Defined.

(** ** Where [size_t] sums wrap, and where payloads start *)

(** C1: after [create_arena(64)], [_arena_alloc(arena, 1, 16)] is a valid
    request and returns 4136, the start of the first payload: 40 bytes
    after the page boundary 4096, hence 8 more than a multiple of 16 and
    not aligned as requested. *)
Theorem alloc_alignment_16_off_by_8 :
  create_arena PAGE_SHIFT [] (Some 4096) 64 = Ok demo0 /\
  valid_request 1 16 = true /\
  exists s',
    _arena_alloc PAGE_SHIFT demo0 None 1 16 = Ok (Some 4136, s') /\
    4136 mod 16 = 8 /\ 4136 mod 16 <> 0.
Proof.
  split; [exact demo0_created |]. split; [reflexivity |].
  eexists. split; [vm_compute; reflexivity |].
  split; [reflexivity | discriminate].
Qed.

(** C4: on the arena of [create_arena(64)], the valid request
    [_arena_alloc(arena, SIZE_MAX - 22, 1)] finds no room in [last];
    [size + REGION_HEADER_SIZE] wraps to 1, the new Region is one page
    with 4072 bytes of payload, the second [region_alloc] fails too, and
    the caller receives [nullptr]. *)
Theorem alloc_wrapped_size_returns_null :
  valid_request (SIZE_MAX - 22) 1 = true /\
  size_t (max (SIZE_MAX - 22) 64 + REGION_HEADER_SIZE) = 1 /\
  exists s' r,
    _arena_alloc PAGE_SHIFT demo0 (Some 8192) (SIZE_MAX - 22) 1
      = Ok (None, s') /\
    last s' = 8192 /\ regions s' !! 8192 = Some r /\
    tail r = 0 /\ capacity r = 4072 /\ capacity r < SIZE_MAX - 22.
Proof.
  split; [reflexivity |]. split; [reflexivity |].
  eexists. exists (empty_region 4072).
  split; [vm_compute; reflexivity |].
  repeat split.
Qed.

(** C6: [create_arena(SIZE_MAX)]: [capacity + ARENA_HEADER_SIZE] wraps to
    39, one page is mapped, and the first region holds 4056 bytes, fewer
    than were asked for. *)
Theorem create_wrapped_capacity_is_small :
  in_size_t SIZE_MAX /\
  size_t (SIZE_MAX + ARENA_HEADER_SIZE) = 39 /\
  exists s r,
    create_arena PAGE_SHIFT [] (Some 4096) SIZE_MAX = Ok s /\
    mappings s = [(4096, 4096)] /\
    regions s !! first s = Some r /\
    capacity r = 4056 /\ capacity r < SIZE_MAX.
Proof.
  split; [unfold in_size_t, SIZE_MAX, SIZE_BITS; lia |].
  split; [reflexivity |].
  eexists. exists (empty_region 4056).
  split; [vm_compute; reflexivity |].
  repeat split.
Qed.

(** * The further properties at concrete inputs *)

Lemma demo0_run : run PAGE_SHIFT demo0 [].
Proof.
  apply (run_create PAGE_SHIFT [] (Some 4096) 64 demo0);
    [| exact demo0_created].
  unfold in_size_t, SIZE_MAX, SIZE_BITS. lia.
Qed.

Lemma demo1_run : run PAGE_SHIFT demo1 demo_log1.
Proof.
  exact (run_alloc PAGE_SHIFT demo0 [] None 4051 1 (Some 4136) demo1
           demo0_run eq_refl demo1_allocated).
Qed.

Example gap1_allocated :
  _arena_alloc PAGE_SHIFT demo0 None 4050 1 = Ok (Some 4136, gap1).
Proof. vm_compute. reflexivity. Qed.

Example gap2_allocated :
  _arena_alloc PAGE_SHIFT gap1 (Some 8192) 10 1 = Ok (Some 8216, gap2).
Proof. vm_compute. reflexivity. Qed.

Example gap3_allocated :
  _arena_alloc PAGE_SHIFT gap2 None 4060 1 = Ok (Some 8226, gap3).
Proof. vm_compute. reflexivity. Qed.

Example gap4_allocated :
  _arena_alloc PAGE_SHIFT gap3 (Some 12288) 5 1 = Ok (Some 12312, gap4).
Proof. vm_compute. reflexivity. Qed.

Lemma gap3_run :
  run PAGE_SHIFT gap3
    [mkAllocation 8226 4060 1; mkAllocation 8216 10 1;
     mkAllocation 4136 4050 1].
Proof.
  refine (run_alloc PAGE_SHIFT gap2 _ None 4060 1 (Some 8226) gap3
            _ eq_refl gap3_allocated).
  refine (run_alloc PAGE_SHIFT gap1 _ (Some 8192) 10 1 (Some 8216) gap2
            _ eq_refl gap2_allocated).
  exact (run_alloc PAGE_SHIFT demo0 [] None 4050 1 (Some 4136) gap1
           demo0_run eq_refl gap1_allocated).
Qed.

Lemma gap3_ok : arena_ok gap3.
Proof. exact (proj1 (run_sound _ PAGE_SHIFT_range _ _ gap3_run)). Qed.

Lemma roomless_intro h size alignment p r :
  h !! p = Some r -> has_room r size alignment = false ->
  roomless h size alignment p.
Proof. intros Hp Hr r' Hp'. congruence. Qed.

Lemma demo2_first_roomless size :
  5 < size -> roomless (regions demo2) size 1 4112.
Proof.
  intros Hs.
  apply (roomless_intro _ _ _ _
           (set_next (set_tail (empty_region 4056) 4051) (Some 8192)));
    [reflexivity |].
  unfold has_room, round_up. cbn. rewrite Z.div_1_r.
  apply Z.leb_gt. lia.
Qed.

Lemma demo2_last_roomless size :
  50 < size -> roomless (regions demo2) size 1 8192.
Proof.
  intros Hs.
  apply (roomless_intro _ _ _ _ (set_tail (empty_region 4072) 4022));
    [reflexivity |].
  unfold has_room, round_up. cbn. rewrite Z.div_1_r.
  apply Z.leb_gt. lia.
Qed.

Lemma small_in_size_t z : 0 <= z <= 2 ^ 63 -> in_size_t z.
Proof. unfold in_size_t, SIZE_MAX, SIZE_BITS. lia. Qed.

Lemma align_least_multiple_witness :
  align 13 (2 ^ 3) mod 2 ^ 3 = 0 /\
  13 <= align 13 (2 ^ 3) < 13 + 2 ^ 3 /\
  (forall m, m mod 2 ^ 3 = 0 -> 13 <= m -> align 13 (2 ^ 3) <= m) /\
  align (align 13 (2 ^ 3)) (2 ^ 3) = align 13 (2 ^ 3).
Proof.
  apply (align_least_multiple 13 3); unfold SIZE_MAX, SIZE_BITS; lia.
Defined.

Lemma align_wraps_to_zero_witness :
  in_size_t (SIZE_MAX - 3) /\ SIZE_MAX < SIZE_MAX - 3 + (2 ^ 4 - 1) /\
  align (SIZE_MAX - 3) (2 ^ 4) = 0 /\
  align (SIZE_MAX - 3) (2 ^ 4) < SIZE_MAX - 3.
Proof.
  assert (in_size_t (SIZE_MAX - 3)) as H1
    by (unfold in_size_t, SIZE_MAX, SIZE_BITS; lia).
  assert (SIZE_MAX < SIZE_MAX - 3 + (2 ^ 4 - 1)) as H2 by lia.
  split; [exact H1 |]. split; [exact H2 |].
  exact (align_wraps_to_zero (SIZE_MAX - 3) 4 H1 ltac:(lia) H2).
Defined.

Lemma is_power_of_two_spec_witness :
  in_size_t 4096 /\
  (is_power_of_two 4096 = true <-> exists k, 0 <= k < 64 /\ 4096 = 2 ^ k).
Proof.
  assert (in_size_t 4096) as H by (apply small_in_size_t; lia).
  split; [exact H |]. exact (is_power_of_two_spec 4096 H).
Defined.

Lemma align_to_page_multiple_witness :
  in_size_t 5000 /\ in_size_t (align_to_page PAGE_SHIFT 5000) /\
  align_to_page PAGE_SHIFT 5000 mod page_size PAGE_SHIFT = 0.
Proof.
  assert (in_size_t 5000) as H by (apply small_in_size_t; lia).
  destruct (align_to_page_multiple PAGE_SHIFT PAGE_SHIFT_range 5000 H)
    as (H1 & H2 & _).
  auto.
Defined.

Lemma invalid_request_aborts_witness :
  in_size_t 0 /\ in_size_t 8 /\ valid_request 0 8 = false /\
  region_alloc (regions demo0) 4112 0 8 = Stop AssertFailed /\
  _arena_alloc PAGE_SHIFT demo0 None 0 8 = Stop AssertFailed /\
  _arena_fit PAGE_SHIFT demo0 None 0 8 = Stop AssertFailed.
Proof.
  assert (in_size_t 0) as H0 by (apply small_in_size_t; lia).
  assert (in_size_t 8) as H8 by (apply small_in_size_t; lia).
  do 2 (split; [assumption |]). split; [reflexivity |].
  exact (invalid_request_aborts PAGE_SHIFT (regions demo0) 4112 demo0 None
           0 8 H0 H8 eq_refl).
Defined.

Lemma demo0_region_ok : region_ok (empty_region 4056).
Proof.
  unfold region_ok, SIZE_BITS, REGION_HEADER_SIZE. cbn. lia.
Qed.

Lemma demo1_region_ok : region_ok (set_tail (empty_region 4056) 4051).
Proof.
  unfold region_ok, SIZE_BITS, REGION_HEADER_SIZE. cbn. lia.
Qed.

Lemma region_alloc_success_frame_witness :
  region_alloc (regions demo0) 4112 10 8 =
    Ok (Some 4136, <[4112 := set_tail (empty_region 4056) 10]> (regions demo0))
  /\
  exists r',
    <[4112 := set_tail (empty_region 4056) 10]> (regions demo0) !! 4112
      = Some r' /\
    capacity r' = 4056 /\ 4136 + 10 = data_addr 4112 + tail r'.
Proof.
  assert (region_alloc (regions demo0) 4112 10 8 =
            Ok (Some 4136,
                <[4112 := set_tail (empty_region 4056) 10]> (regions demo0)))
    as Hcall by reflexivity.
  split; [exact Hcall |].
  destruct (region_alloc_success_frame (regions demo0) 4112
              (empty_region 4056) 10 8 4136 _ eq_refl demo0_region_ok
              eq_refl Hcall)
    as (r' & Hr & Hc & _ & _ & _ & _ & Hend & _).
  exists r'. auto.
Defined.

Lemma region_alloc_short_of_room_witness :
  4056 - 4051 < 10 /\
  region_alloc (regions demo1) 4112 10 1 = Ok (None, regions demo1).
Proof.
  split; [lia |].
  exact (region_alloc_short_of_room (regions demo1) 4112
           (set_tail (empty_region 4056) 4051) 10 1 eq_refl
           demo1_region_ok eq_refl ltac:(cbn; lia)).
Defined.

Lemma alloc_grows_past_earlier_room_witness :
  has_room (set_next (set_tail (empty_region 4056) 4050) (Some 8192)) 5 1
    = true /\
  has_room (set_tail (empty_region 4072) 4070) 5 1 = false /\
  _arena_alloc PAGE_SHIFT gap3 (Some 12288) 5 1 = Ok (Some 12312, gap4) /\
  regions gap3 !! last gap4 = None /\
  regions gap4 !! 4112 = regions gap3 !! 4112.
Proof.
  destruct (alloc_grows_past_earlier_room PAGE_SHIFT PAGE_SHIFT_range gap3
              (Some 12288) 5 1 (set_tail (empty_region 4072) 4070)
              (Some 12312) gap4 gap3_ok eq_refl eq_refl eq_refl
              gap4_allocated)
    as (Hnew & _ & _ & Hkeep).
  do 2 (split; [reflexivity |]). split; [exact gap4_allocated |].
  split; [exact Hnew |].
  rewrite (Hkeep 4112 _ eq_refl ltac:(discriminate)). reflexivity.
Defined.

Lemma fit_grows_when_no_region_has_room_witness :
  Forall (roomless (regions demo2) 100 1) [4112; 8192] /\
  _arena_fit PAGE_SHIFT demo2 (Some 16384) 100 1 =
  new_region_alloc PAGE_SHIFT demo2 (Some 16384) 100 1.
Proof.
  assert (Forall (roomless (regions demo2) 100 1) [4112; 8192]) as Hall.
  { repeat constructor;
      [apply demo2_first_roomless | apply demo2_last_roomless]; lia. }
  split; [exact Hall |].
  exact (fit_grows_when_no_region_has_room PAGE_SHIFT demo2 (Some 16384)
           100 1 [4112; 8192] demo2_ok eq_refl demo2_chain Hall).
Defined.

Lemma fit_agrees_with_alloc_witness :
  Forall (roomless (regions demo2) 10 1) [4112] /\
  _arena_fit PAGE_SHIFT demo2 None 10 1 =
  _arena_alloc PAGE_SHIFT demo2 None 10 1.
Proof.
  assert (Forall (roomless (regions demo2) 10 1) [4112]) as Hall
    by (repeat constructor; apply demo2_first_roomless; lia).
  split; [exact Hall |].
  exact (fit_agrees_with_alloc PAGE_SHIFT demo2 None 10 1 [4112] demo2_ok
           eq_refl demo2_chain Hall).
Defined.

Lemma valid_calls_stop_only_on_map_failure_witness :
  run PAGE_SHIFT demo2 demo_log2 /\ valid_request 100 1 = true /\
  _arena_alloc PAGE_SHIFT demo2 None 100 1 = Stop MapFailed /\
  (_arena_alloc PAGE_SHIFT demo2 None 100 1 = Stop MapFailed ->
   MapFailed = MapFailed).
Proof.
  split; [exact demo2_run |]. split; [reflexivity |].
  split; [reflexivity |].
  exact (proj1 (valid_calls_stop_only_on_map_failure PAGE_SHIFT
                  PAGE_SHIFT_range demo2 demo_log2 None 100 1 MapFailed
                  demo2_run eq_refl)).
Defined.

Lemma blocks_never_overlap_witness :
  run PAGE_SHIFT demo2 demo_log2 /\
  (8216 + 4022 <= 4136 \/ 4136 + 4051 <= 8216).
Proof.
  split; [exact demo2_run |].
  exact (blocks_never_overlap PAGE_SHIFT PAGE_SHIFT_range demo2 demo_log2
           0%nat 1%nat (mkAllocation 8216 4022 1) (mkAllocation 4136 4051 1)
           demo2_run ltac:(discriminate) eq_refl eq_refl).
Defined.

Lemma demo_log2_head : mkAllocation 8216 4022 1 ∈ demo_log2.
Proof. apply list_elem_of_here. Qed.


Lemma blocks_lie_in_mapped_payload_witness :
  run PAGE_SHIFT demo2 demo_log2 /\
  exists p r b,
    regions demo2 !! p = Some r /\ b ∈ mappings demo2 /\
    data_addr p <= 8216 /\ 8216 + 4022 <= data_addr p + tail r /\
    tail r <= capacity r /\ b.1 <= 8216 /\ 8216 + 4022 <= b.1 + b.2.
Proof.
  split; [exact demo2_run |].
  exact (proj2 (blocks_lie_in_mapped_payload PAGE_SHIFT PAGE_SHIFT_range
                  demo2 demo_log2 (mkAllocation 8216 4022 1) demo2_run
                  demo_log2_head)).
Defined.

Lemma page_size_4096 : page_size PAGE_SHIFT = 4096.
Proof. reflexivity. Qed.

Lemma growth_without_wrap_serves_witness :
  arena_ok (set_region_capacity demo2 128) /\
  new_region_alloc PAGE_SHIFT (set_region_capacity demo2 128)
                   (Some 16384) 100 1 = Ok (Some 16408, demo3) /\
  exists r,
    regions demo3 !! last demo3 = Some r /\ tail r = 100 /\
    128 <= capacity r /\
    (capacity r + REGION_HEADER_SIZE) mod page_size PAGE_SHIFT = 0.
Proof.
  assert (arena_ok (set_region_capacity demo2 128)) as Hok
    by (apply arena_ok_set, demo2_ok).
  split; [exact Hok |]. split; [exact demo3_grown |].
  destruct (growth_without_wrap_serves PAGE_SHIFT PAGE_SHIFT_range
              (set_region_capacity demo2 128) (Some 16384) 100 1
              (Some 16408) demo3 Hok eq_refl
              ltac:(apply small_in_size_t; cbn; lia)
              ltac:(rewrite page_size_4096; unfold SIZE_MAX, SIZE_BITS,
                      REGION_HEADER_SIZE; cbn; lia)
              demo3_grown)
    as (l & r & _ & _ & _ & Hr & _ & _ & Ht & _ & Hn & Hm).
  exists r. auto.
Defined.

Lemma create_without_wrap_witness :
  in_size_t 64 /\
  create_arena PAGE_SHIFT [] (Some 4096) 64 = Ok demo0 /\
  exists r,
    regions demo0 !! first demo0 = Some r /\ 64 <= capacity r /\
    (64 <= page_size PAGE_SHIFT - ARENA_HEADER_SIZE ->
     capacity r = page_size PAGE_SHIFT - ARENA_HEADER_SIZE).
Proof.
  assert (in_size_t 64) as H by (apply small_in_size_t; lia).
  split; [exact H |]. split; [exact demo0_created |].
  destruct (create_without_wrap PAGE_SHIFT PAGE_SHIFT_range [] (Some 4096)
              64 demo0 H
              ltac:(rewrite page_size_4096; unfold SIZE_MAX, SIZE_BITS,
                      ARENA_HEADER_SIZE, ARENA_FIRST_OFFSET,
                      REGION_HEADER_SIZE; lia)
              demo0_created)
    as (r & Hr & _ & _ & Hc & _ & _ & _ & Hone).
  exists r. auto.
Defined.

Lemma zero_length_request_exits_witness :
  in_size_t (SIZE_MAX - 40) /\
  create_arena PAGE_SHIFT [] (Some 4096) (SIZE_MAX - 40) = Stop MapFailed /\
  create_region PAGE_SHIFT [] ∅ (Some 4096) (SIZE_MAX - 40) = Stop MapFailed.
Proof.
  assert (in_size_t (SIZE_MAX - 40)) as H
    by (unfold in_size_t, SIZE_MAX, SIZE_BITS; lia).
  destruct (zero_length_request_exits PAGE_SHIFT PAGE_SHIFT_range []
              ∅ (Some 4096) (SIZE_MAX - 40) H) as [Ha Hr].
  split; [exact H |]. split.
  - apply Ha. rewrite page_size_4096.
    unfold ARENA_HEADER_SIZE, ARENA_FIRST_OFFSET, REGION_HEADER_SIZE. lia.
  - apply Hr. rewrite page_size_4096. unfold REGION_HEADER_SIZE. lia.
Defined.

Lemma calls_keep_what_exists_witness :
  run PAGE_SHIFT demo1 demo_log1 /\
  _arena_alloc PAGE_SHIFT demo1 (Some 8192) 4022 1 = Ok (Some 8216, demo2) /\
  arena demo2 = arena demo1 /\
  new_region_capacity demo2 = new_region_capacity demo1 /\
  exists r', regions demo2 !! 4112 = Some r' /\ capacity r' = 4056 /\
    4051 <= tail r'.
Proof.
  destruct (calls_keep_what_exists PAGE_SHIFT PAGE_SHIFT_range demo1
              demo_log1 (Some 8192) 4022 1 (Some 8216) demo2 demo1_run
              eq_refl (or_introl demo2_allocated))
    as (Ha & Hn & _ & Hkeep).
  split; [exact demo1_run |]. split; [exact demo2_allocated |].
  do 2 (split; [assumption |]).
  destruct (Hkeep 4112 (set_tail (empty_region 4056) 4051) eq_refl)
    as (r' & Hr & Hc & _ & Ht).
  exists r'. auto.
Defined.

Lemma delete_arena_releases_every_block_once_witness :
  run PAGE_SHIFT demo2 demo_log2 /\
  delete_arena PAGE_SHIFT demo2 = Ok ([], ∅, [(8192, 4096); (4096, 4096)]) /\
  exists l rest os0,
    l = first demo2 :: rest /\
    mappings demo2 = map (block_of demo2) (rev l) ++ os0 /\
    delete_arena PAGE_SHIFT demo2 =
      Ok (os0, ∅, map (block_of demo2) rest ++ [block_of demo2 (first demo2)]).
Proof.
  split; [exact demo2_run |]. split; [vm_compute; reflexivity |].
  destruct (delete_arena_releases_every_block_once PAGE_SHIFT
              PAGE_SHIFT_range demo2 demo_log2 demo2_run)
    as (l & rest & os0 & _ & Hl & Hm & _ & _ & Hd).
  exists l, rest, os0. auto.
Defined.

Lemma typed_request_of_zero_bytes_aborts_witness :
  size_t (0 * sizeof double_t) = 0 /\
  size_t (2 ^ 61 * sizeof double_t) = 0 /\
  arena_alloc PAGE_SHIFT demo0 None 0 double_t = Stop AssertFailed /\
  arena_fit PAGE_SHIFT demo0 None (2 ^ 61) double_t = Stop AssertFailed.
Proof.
  do 2 (split; [reflexivity |]). split.
  - exact (proj1 (typed_request_of_zero_bytes_aborts PAGE_SHIFT demo0 None
                    0 double_t eq_refl)).
  - exact (proj2 (typed_request_of_zero_bytes_aborts PAGE_SHIFT demo0 None
                    (2 ^ 61) double_t eq_refl)).
Defined.

Example doubles_allocated :
  arena_alloc PAGE_SHIFT demo0 None 3 double_t =
    Ok (Some 4136,
        set_regions demo0 {[ 4112 := set_tail (empty_region 4056) 24 ]}).
Proof. vm_compute. reflexivity. Qed.

Lemma typed_array_elements_aligned_witness :
  run PAGE_SHIFT demo0 [] /\
  sizeof double_t mod alignof double_t = 0 /\
  3 * sizeof double_t <= SIZE_MAX /\
  (4136 + 2 * sizeof double_t) mod alignof double_t = 0.
Proof.
  split; [exact demo0_run |]. split; [reflexivity |].
  split; [unfold SIZE_MAX, SIZE_BITS; cbn; lia |].
  exact (proj1 (typed_array_elements_aligned PAGE_SHIFT PAGE_SHIFT_range
                  demo0 [] None 3 double_t 3 4136 _ demo0_run
                  ltac:(lia) eq_refl ltac:(cbn; lia) eq_refl ltac:(lia)
                  ltac:(unfold SIZE_MAX, SIZE_BITS; cbn; lia)
                  (or_introl doubles_allocated) 2 ltac:(lia))).
Defined.

Lemma regions_fill_whole_pages_witness :
  run PAGE_SHIFT demo2 demo_log2 /\
  8192 mod page_size PAGE_SHIFT = 0 /\
  (4072 + REGION_HEADER_SIZE) mod page_size PAGE_SHIFT = 0 /\
  arena demo2 mod page_size PAGE_SHIFT = 0 /\
  (4056 + ARENA_HEADER_SIZE) mod page_size PAGE_SHIFT = 0.
Proof.
  split; [exact demo2_run |].
  destruct (proj2 (regions_fill_whole_pages PAGE_SHIFT PAGE_SHIFT_range
                     demo2 demo_log2 8192
                     (set_tail (empty_region 4072) 4022) demo2_run eq_refl)
              ltac:(discriminate)) as (H1 & H2 & _).
  destruct (proj1 (regions_fill_whole_pages PAGE_SHIFT PAGE_SHIFT_range
                     demo2 demo_log2 4112
                     (set_next (set_tail (empty_region 4056) 4051)
                               (Some 8192)) demo2_run eq_refl)
              eq_refl) as (H3 & H4 & _).
  auto.
Defined.

Lemma every_region_is_on_the_chain_witness :
  run PAGE_SHIFT demo2 demo_log2 /\
  is_chain (regions demo2) (first demo2) [4112; 8192] /\
  (is_Some (regions demo2 !! 8192) <-> 8192 ∈ [4112; 8192]) /\
  (is_Some (regions demo2 !! 12288) <-> 12288 ∈ [4112; 8192]).
Proof.
  split; [exact demo2_run |]. split; [exact demo2_chain |]. split.
  - exact (every_region_is_on_the_chain PAGE_SHIFT PAGE_SHIFT_range demo2
             demo_log2 [4112; 8192] 8192 demo2_run demo2_chain).
  - exact (every_region_is_on_the_chain PAGE_SHIFT PAGE_SHIFT_range demo2
             demo_log2 [4112; 8192] 12288 demo2_run demo2_chain).
Defined.

Example wrapped1_allocated :
  _arena_alloc PAGE_SHIFT demo0 (Some 8192) (SIZE_MAX - 22) 1
    = Ok (None, wrapped1).
Proof. vm_compute. reflexivity. Qed.

Lemma null_only_on_wrap_witness :
  run PAGE_SHIFT demo0 [] /\ valid_request (SIZE_MAX - 22) 1 = true /\
  _arena_alloc PAGE_SHIFT demo0 (Some 8192) (SIZE_MAX - 22) 1
    = Ok (None, wrapped1) /\
  SIZE_MAX <
    max (SIZE_MAX - 22) (new_region_capacity demo0) + REGION_HEADER_SIZE
    + (page_size PAGE_SHIFT - 1).
Proof.
  split; [exact demo0_run |]. split; [reflexivity |].
  split; [exact wrapped1_allocated |].
  exact (null_only_on_wrap PAGE_SHIFT PAGE_SHIFT_range demo0 [] (Some 8192)
           (SIZE_MAX - 22) 1 wrapped1 demo0_run eq_refl
           ltac:(apply small_in_size_t; cbn; lia)
           (or_introl wrapped1_allocated)).
Defined.
